(** * The central free lists of the Go runtime allocator (runtime/mcentral.go)

    A shallow embedding of [mcentral.cacheSpan], [mcentral.uncacheSpan],
    [mcentral.freeSpan] and [mcentral.grow], and the properties of the
    central span cache that follow from the code.

    Conventions.
    - Go's fixed-width integers are [Z] with the wrap-around written out
      (a 64-bit platform: [uintptr] and [int] are 64 bits wide).
    - An [*mspan] is an address ([nat]) into the store [spans]; a dangling
      or nil address faults.
    - [throw] is fatal: it ends the run, and the model keeps the state the
      process was in when it died.
    - The operations of one thread are modelled; every operation on the
      mutex, the two lists, the two counters, the sweeper and the page heap
      is also appended to a log, so that the order of effects (what happens
      under the lock, what happens after it) can be stated. *)

From Stdlib Require Import ZArith Lia.
From stdpp Require Import gmap list strings.

Open Scope Z_scope.

(** ** Machine integers *)

Definition uint8 (x : Z) : Z := x mod 2 ^ 8.
Definition uint16 (x : Z) : Z := x mod 2 ^ 16.
Definition uint32 (x : Z) : Z := x mod 2 ^ 32.
Definition uint64 (x : Z) : Z := x mod 2 ^ 64.
Definition uintptr (x : Z) : Z := x mod 2 ^ 64.
Definition int64 (x : Z) : Z := (x + 2 ^ 63) mod 2 ^ 64 - 2 ^ 63.
Definition int (x : Z) : Z := int64 x.

(** ** Data *)

(** The fields of [mspan] that mcentral.go reads or writes. *)
Record mspan := Mspan {
  startAddr : Z;   (* uintptr, s.base() *)
  limit : Z;       (* uintptr *)
  sweepgen : Z;    (* uint32 *)
  divMul : Z;      (* uint16 *)
  divShift : Z;    (* uint8 *)
  divShift2 : Z;   (* uint8 *)
  nelems : Z;      (* uintptr *)
  freeindex : Z;   (* uintptr *)
  allocCache : Z;  (* uint64 *)
  allocCount : Z;  (* uint16 *)
  elemsize : Z;    (* uintptr *)
  needzero : Z     (* uint8 *)
}.

Definition set_sweepgen (v : Z) (sp : mspan) : mspan :=
  Mspan (startAddr sp) (limit sp) v (divMul sp) (divShift sp) (divShift2 sp)
        (nelems sp) (freeindex sp) (allocCache sp) (allocCount sp)
        (elemsize sp) (needzero sp).

Definition set_limit (v : Z) (sp : mspan) : mspan :=
  Mspan (startAddr sp) v (sweepgen sp) (divMul sp) (divShift sp) (divShift2 sp)
        (nelems sp) (freeindex sp) (allocCache sp) (allocCount sp)
        (elemsize sp) (needzero sp).

Definition set_freeindex (v : Z) (sp : mspan) : mspan :=
  Mspan (startAddr sp) (limit sp) (sweepgen sp) (divMul sp) (divShift sp)
        (divShift2 sp) (nelems sp) v (allocCache sp) (allocCount sp)
        (elemsize sp) (needzero sp).

Definition set_allocCache (v : Z) (sp : mspan) : mspan :=
  Mspan (startAddr sp) (limit sp) (sweepgen sp) (divMul sp) (divShift sp)
        (divShift2 sp) (nelems sp) (freeindex sp) v (allocCount sp)
        (elemsize sp) (needzero sp).

Definition set_allocCount (v : Z) (sp : mspan) : mspan :=
  Mspan (startAddr sp) (limit sp) (sweepgen sp) (divMul sp) (divShift sp)
        (divShift2 sp) (nelems sp) (freeindex sp) (allocCache sp) v
        (elemsize sp) (needzero sp).

Definition set_needzero (v : Z) (sp : mspan) : mspan :=
  Mspan (startAddr sp) (limit sp) (sweepgen sp) (divMul sp) (divShift sp)
        (divShift2 sp) (nelems sp) (freeindex sp) (allocCache sp)
        (allocCount sp) (elemsize sp) v.

(** [mcentral]: the mutex, the span class, the two lists and [nmalloc]. *)
Record mcentral := Mcentral {
  lock_held : bool;        (* lock mutex *)
  spanclass : Z;           (* spanClass, a uint8 *)
  nonempty : list nat;     (* spans with a free object *)
  empty : list nat;        (* spans with no free object, or cached *)
  nmalloc : Z              (* uint64 *)
}.

Inductive mlist := Nonempty | Empty.

(** The effects a call performs, in program order. *)
Inductive event :=
| EvLock
| EvUnlock
| EvRemove (l : mlist) (s : nat)
| EvInsert (l : mlist) (s : nat)
| EvInsertBack (l : mlist) (s : nat)
| EvCas (s : nat) (old new : Z) (ok : bool)
| EvStoreSweepgen (s : nat) (v : Z)
| EvXaddNmalloc (delta : Z)
| EvXaddHeapLive (delta : Z)
| EvSweep (s : nat) (preserve : bool)
| EvHeapAlloc (npages : Z)
| EvHeapFreeSpan (s : nat).

(** The part of the process the central cache touches:
    [c] is the mcentral, [spans] the span records by address,
    [mheap_sweepgen] is [mheap_.sweepgen], [heap_live] is
    [memstats.heap_live]. *)
Record State := MkState {
  c : mcentral;
  spans : gmap nat mspan;
  mheap_sweepgen : Z;      (* uint32 *)
  heap_live : Z;           (* uint64 *)
  trace : list event
}.

Definition set_c (f : mcentral -> mcentral) (st : State) : State :=
  MkState (f (c st)) (spans st) (mheap_sweepgen st) (heap_live st) (trace st).

Definition set_spans (f : gmap nat mspan -> gmap nat mspan) (st : State) : State :=
  MkState (c st) (f (spans st)) (mheap_sweepgen st) (heap_live st) (trace st).

Definition set_heap_live (v : Z) (st : State) : State :=
  MkState (c st) (spans st) (mheap_sweepgen st) v (trace st).

Definition set_trace (t : list event) (st : State) : State :=
  MkState (c st) (spans st) (mheap_sweepgen st) (heap_live st) t.

Definition set_lock_held (b : bool) (m : mcentral) : mcentral :=
  Mcentral b (spanclass m) (nonempty m) (empty m) (nmalloc m).

Definition set_nonempty (l : list nat) (m : mcentral) : mcentral :=
  Mcentral (lock_held m) (spanclass m) l (empty m) (nmalloc m).

Definition set_empty (l : list nat) (m : mcentral) : mcentral :=
  Mcentral (lock_held m) (spanclass m) (nonempty m) l (nmalloc m).

Definition set_nmalloc (v : Z) (m : mcentral) : mcentral :=
  Mcentral (lock_held m) (spanclass m) (nonempty m) (empty m) v.

(** ** Outcomes and the state-and-throw monad *)

Inductive result (A : Type) : Type :=
| Ok (a : A) (st : State)          (* the call returned [a] *)
| Throw (msg : string) (st : State) (* fatal error, the process died in [st] *)
| Unfinished (st : State).          (* the retry budget of the model ran out *)

Arguments Ok {A} a st.
Arguments Throw {A} msg st.
Arguments Unfinished {A} st.

Definition M (A : Type) : Type := State -> result A.

Definition ret {A} (a : A) : M A := fun st => Ok a st.

Definition bind {A B} (m : M A) (k : A -> M B) : M B := fun st =>
  match m st with
  | Ok a st' => k a st'
  | Throw msg st' => Throw msg st'
  | Unfinished st' => Unfinished st'
  end.

#[global] Instance M_ret : MRet M := @ret.
#[global] Instance M_bind : MBind M := fun A B k m => bind m k.

Definition throw {A} (msg : string) : M A := fun st => Throw msg st.
Definition gets {A} (f : State -> A) : M A := fun st => Ok (f st) st.
Definition modify (f : State -> State) : M unit := fun st => Ok tt (f st).
Definition emit (e : event) : M unit :=
  modify (fun st => set_trace (trace st ++ [e]) st).

(** The state an outcome leaves behind. *)
Definition final {A} (r : result A) : State :=
  match r with
  | Ok _ st => st
  | Throw _ st => st
  | Unfinished st => st
  end.

(** [s.f]: reading through a span pointer. *)
Definition deref (s : nat) : M mspan := fun st =>
  match spans st !! s with
  | Some sp => Ok sp st
  | None => Throw "invalid memory address or nil pointer dereference" st
  end.

(** [s.f = v]: writing through a span pointer. *)
Definition update_span (s : nat) (f : mspan -> mspan) : M unit :=
  modify (set_spans (alter f s)).

(** ** The mutex *)

(** Modelled from the spec: [lock] of the runtime (lock_futex.go or
    lock_sema.go, not among the sources), on the "mutex [that] guards list
    membership and the two list head/tail pointers". With one thread the
    mutex is a flag; taking it is logged. *)
Definition lock : M unit :=
  modify (set_c (set_lock_held true));; emit EvLock.

(** Modelled from the spec: [unlock] of the runtime, as [lock]. *)
Definition unlock : M unit :=
  modify (set_c (set_lock_held false));; emit EvUnlock.

(** ** Span lists *)

Definition get_list (l : mlist) (m : mcentral) : list nat :=
  match l with Nonempty => nonempty m | Empty => empty m end.

Definition put_list (l : mlist) (v : list nat) (m : mcentral) : mcentral :=
  match l with Nonempty => set_nonempty v m | Empty => set_empty v m end.

(** Modelled from the spec: [mSpanList.remove] (mheap.go is not among the
    sources). The list is "an ordered collection supporting insert-at-back,
    remove-by-reference, and forward iteration from the front": a list of
    span addresses, front first, from which the span is taken out. *)
Definition mSpanList_remove (l : mlist) (s : nat) : M unit :=
  modify (set_c (fun m => put_list l (filter (λ x, x ≠ s) (get_list l m)) m));;
  emit (EvRemove l s).

(** Modelled from the spec: [mSpanList.insert] (mheap.go), which links the
    span into the list; here at its front. *)
Definition mSpanList_insert (l : mlist) (s : nat) : M unit :=
  modify (set_c (fun m => put_list l (s :: get_list l m) m));;
  emit (EvInsert l s).

(** Modelled from the spec: [mSpanList.insertBack] (mheap.go),
    "insert-at-back". *)
Definition mSpanList_insertBack (l : mlist) (s : nat) : M unit :=
  modify (set_c (fun m => put_list l (get_list l m ++ [s]) m));;
  emit (EvInsertBack l s).

(** Modelled from the spec: [mspan.inList] (mheap.go), whether the span is
    linked into a list; with the one mcentral of the state, whether it is
    "in nonempty list" or "in empty list". *)
Definition inList (s : nat) : M bool :=
  gets (fun st => bool_decide (s ∈ nonempty (c st) ∨ s ∈ empty (c st))).

(** ** Atomics (runtime/internal/atomic) *)

(** Modelled from the spec: [atomic.Cas] on [s.sweepgen], "a single atomic
    compare-and-swap". *)
Definition atomic_Cas_sweepgen (s : nat) (old new : Z) : M bool :=
  sp ← deref s;
  if sweepgen sp =? old
  then update_span s (set_sweepgen new);; emit (EvCas s old new true);; ret true
  else emit (EvCas s old new false);; ret false.

(** Modelled from the spec: [atomic.Store] on [s.sweepgen]. *)
Definition atomic_Store_sweepgen (s : nat) (v : Z) : M unit :=
  deref s;; update_span s (set_sweepgen v);; emit (EvStoreSweepgen s v).

(** Modelled from the spec: [atomic.Xadd64] on [c.nmalloc], an "atomic
    fetch-and-add" of a signed delta to a uint64. *)
Definition atomic_Xadd64_nmalloc (delta : Z) : M unit :=
  modify (set_c (fun m => set_nmalloc (uint64 (nmalloc m + delta)) m));;
  emit (EvXaddNmalloc delta).

(** Modelled from the spec: [atomic.Xadd64] on [memstats.heap_live]. *)
Definition atomic_Xadd64_heap_live (delta : Z) : M unit :=
  modify (fun st => set_heap_live (uint64 (heap_live st + delta)) st);;
  emit (EvXaddHeapLive delta).

(** Modelled from the spec: [mheap_.freeSpan] (mheap.go), which
    "permanently returns a fully-free span's memory to the arena". The
    arena's own state is not part of [State]; the hand-over is logged. *)
Definition mheap_freeSpan (s : nat) : M unit := emit (EvHeapFreeSpan s).

(** ** The rest of the runtime

    What mcentral.go calls but does not define, taken as parameters: the
    page size, the size-class tables and the decoding of a span class are
    constants of the runtime; the sweeper, the free-index scan and the page
    heap are arbitrary. *)
Record Runtime := MkRuntime {
  _PageShift : Z;
  sizeclass : Z -> Z;                              (* spanClass.sizeclass *)
  class_to_allocnpages : Z -> Z;                   (* [_NumSizeClasses]uint8 *)
  class_to_size : Z -> Z;                          (* [_NumSizeClasses]uint16 *)
  deductSweepCredit : Z -> Z -> M unit;
  sweep : nat -> bool -> M bool;                   (* mspan.sweep *)
  nextFreeIndex : mspan -> Z * mspan;              (* mspan.nextFreeIndex *)
  refillAllocCache : mspan -> Z -> Z;              (* new s.allocCache *)
  mheap_alloc : Z -> Z -> bool -> M (option nat)   (* mheap.alloc *)
}.

Definition _PageSize (rt : Runtime) : Z := Z.shiftl 1 (_PageShift rt).

(** A call into the rest of the runtime: the log keeps the call, as the
    events [evs], and not what the callee does inside. *)
Definition logged {A} (evs : list event) (m : M A) : M A := fun st =>
  let t := trace st ++ evs in
  match m st with
  | Ok a st' => Ok a (set_trace t st')
  | Throw msg st' => Throw msg (set_trace t st')
  | Unfinished st' => Unfinished (set_trace t st')
  end.

Section Central.

Variable rt : Runtime.

(** [s.sweep(preserve)] *)
Definition mspan_sweep (s : nat) (preserve : bool) : M bool :=
  logged [EvSweep s preserve] (sweep rt s preserve).

Definition mspan_nextFreeIndex (s : nat) : M Z :=
  sp ← deref s;
  let '(i, sp') := nextFreeIndex rt sp in
  update_span s (fun _ => sp');; ret i.

Definition mspan_refillAllocCache (s : nat) (whichByte : Z) : M unit :=
  sp ← deref s;
  update_span s (set_allocCache (refillAllocCache rt sp whichByte)).

(** [mheap_.alloc(npages, spanclass, needzero)] *)
Definition mheap_alloc_ (npages : Z) (spc : Z) (needzero : bool)
  : M (option nat) :=
  logged [EvHeapAlloc npages] (mheap_alloc rt npages spc needzero).

(** [deductSweepCredit(spanBytes, callerSweepPages)] *)
Definition deductSweepCredit_ (spanBytes callerSweepPages : Z) : M unit :=
  logged [] (deductSweepCredit rt spanBytes callerSweepPages).

(** *** grow *)

Definition grow : M (option nat) :=
  spc ← gets (fun st => spanclass (c st));
  let npages := uintptr (class_to_allocnpages rt (sizeclass rt spc)) in
  let size := uintptr (class_to_size rt (sizeclass rt spc)) in
  r ← mheap_alloc_ npages spc true;
  match r with
  | None => ret None
  | Some s =>
      sp ← deref s;
      (* n := (npages << _PageShift) >> s.divShift * uintptr(s.divMul) >> s.divShift2 *)
      let n :=
        Z.shiftr
          (uintptr (Z.shiftr (uintptr (Z.shiftl npages (_PageShift rt)))
                             (divShift sp)
                    * uintptr (divMul sp)))
          (divShift2 sp) in
      update_span s (set_limit (uintptr (startAddr sp + uintptr (size * n))));;
      (* heapBitsForAddr(s.base()).initSpan(s) writes the heap bitmap only *)
      ret (Some s)
  end.

(** *** cacheSpan *)

(** From the label [havespan] to the return. *)
Definition havespan (spanBytes : Z) (s : nat) : M (option nat) :=
  sp ← deref s;
  let n := int (int (nelems sp) - int (allocCount sp)) in
  if (n =? 0) || (freeindex sp =? nelems sp)
     || (uintptr (allocCount sp) =? nelems sp)
  then throw "span has no free objects"
  else
    atomic_Xadd64_nmalloc (int64 n);;
    let usedBytes := uintptr (uintptr (allocCount sp) * elemsize sp) in
    atomic_Xadd64_heap_live (int64 (int64 spanBytes - int64 usedBytes));;
    let freeByteBase := Z.ldiff (freeindex sp) (64 - 1) in
    let whichByte := freeByteBase / 8 in
    mspan_refillAllocCache s whichByte;;
    update_span s (fun sp' =>
      set_allocCache (Z.shiftr (allocCache sp') (freeindex sp' mod 64)) sp');;
    ret (Some s).

(** The loop over [c.nonempty]; [Some s] is a jump to [havespan]. *)
Fixpoint scan_nonempty (sg : Z) (l : list nat) : M (option nat) :=
  match l with
  | [] => ret None
  | s :: l' =>
      sp ← deref s;
      claimed ← (if sweepgen sp =? uint32 (sg - 2)
                 then atomic_Cas_sweepgen s (uint32 (sg - 2)) (uint32 (sg - 1))
                 else ret false);
      if (claimed : bool) then
        mSpanList_remove Nonempty s;;
        mSpanList_insertBack Empty s;;
        unlock;;
        mspan_sweep s true;;
        ret (Some s)
      else
        sp1 ← deref s;
        if sweepgen sp1 =? uint32 (sg - 1) then
          (* being swept by the background sweeper, skip *)
          scan_nonempty sg l'
        else
          mSpanList_remove Nonempty s;;
          mSpanList_insertBack Empty s;;
          unlock;;
          ret (Some s)
  end.

(** How the loop over [c.empty] ends. *)
Inductive empty_scan :=
| GotoHavespan (s : nat)
| GotoRetry
| LoopDone.

Fixpoint scan_empty (sg : Z) (l : list nat) : M empty_scan :=
  match l with
  | [] => ret LoopDone
  | s :: l' =>
      sp ← deref s;
      claimed ← (if sweepgen sp =? uint32 (sg - 2)
                 then atomic_Cas_sweepgen s (uint32 (sg - 2)) (uint32 (sg - 1))
                 else ret false);
      if (claimed : bool) then
        mSpanList_remove Empty s;;
        mSpanList_insertBack Empty s;;
        unlock;;
        mspan_sweep s true;;
        freeIndex ← mspan_nextFreeIndex s;
        sp1 ← deref s;
        if negb (freeIndex =? nelems sp1) then
          update_span s (set_freeindex freeIndex);;
          ret (GotoHavespan s)
        else
          lock;;
          ret GotoRetry
      else
        sp1 ← deref s;
        if sweepgen sp1 =? uint32 (sg - 1) then
          scan_empty sg l'
        else
          (* already swept empty span *)
          ret LoopDone
  end.

(** From the label [retry] on; [fuel] bounds the number of jumps back to
    [retry]. *)
Fixpoint cacheSpan_retry (fuel : nat) (sg spanBytes : Z) : M (option nat) :=
  match fuel with
  | O => fun st => Unfinished st
  | S fuel' =>
      ne ← gets (fun st => nonempty (c st));
      r ← scan_nonempty sg ne;
      match r with
      | Some s => havespan spanBytes s
      | None =>
          em ← gets (fun st => empty (c st));
          r' ← scan_empty sg em;
          match r' with
          | GotoHavespan s => havespan spanBytes s
          | GotoRetry => cacheSpan_retry fuel' sg spanBytes
          | LoopDone =>
              unlock;;
              g ← grow;
              match g with
              | None => ret None
              | Some s =>
                  lock;;
                  mSpanList_insertBack Empty s;;
                  unlock;;
                  havespan spanBytes s
              end
          end
      end
  end.

Definition spanBytes_of (spc : Z) : Z :=
  uintptr (uintptr (class_to_allocnpages rt (sizeclass rt spc)) * _PageSize rt).

(** [cacheSpan]. Execution tracing ([trace.enabled]) and
    [gcController.revise] write nothing that [State] holds and are left
    out. *)
Definition cacheSpan (fuel : nat) : M (option nat) :=
  spc ← gets (fun st => spanclass (c st));
  let spanBytes := spanBytes_of spc in
  deductSweepCredit_ spanBytes 0;;
  lock;;
  sg ← gets mheap_sweepgen;
  cacheSpan_retry fuel sg spanBytes.

(** *** uncacheSpan *)

Definition uncacheSpan (s : nat) : M unit :=
  sp ← deref s;
  if allocCount sp =? 0 then throw "uncaching span but s.allocCount == 0"
  else
    sg ← gets mheap_sweepgen;
    let stale := sweepgen sp =? uint32 (sg + 1) in
    (if stale
     then atomic_Store_sweepgen s (uint32 (sg - 1))
     else atomic_Store_sweepgen s sg);;
    let n := int (int (nelems sp) - int (allocCount sp)) in
    (if 0 <? n then
       atomic_Xadd64_nmalloc (int64 (- int64 n));;
       lock;;
       mSpanList_remove Empty s;;
       mSpanList_insert Nonempty s;;
       (if negb stale
        then atomic_Xadd64_heap_live
               (int64 (int64 (- int64 n) * int64 (elemsize sp)))
        else ret tt);;
       unlock
     else ret tt);;
    if stale then mspan_sweep s false;; ret tt else ret tt.

End Central.

(** *** freeSpan *)

Definition freeSpan (s : nat) (preserve wasempty : bool) : M bool :=
  sg ← gets mheap_sweepgen;
  sp ← deref s;
  if (sweepgen sp =? uint32 (sg + 1)) || (sweepgen sp =? uint32 (sg + 3))
  then throw "freeSpan given cached span"
  else
    update_span s (set_needzero 1);;
    if preserve then
      linked ← inList s;
      if negb linked then throw "can't preserve unlinked span"
      else
        sg1 ← gets mheap_sweepgen;
        atomic_Store_sweepgen s sg1;;
        ret false
    else
      lock;;
      (if wasempty
       then mSpanList_remove Empty s;; mSpanList_insert Nonempty s
       else ret tt);;
      sg1 ← gets mheap_sweepgen;
      atomic_Store_sweepgen s sg1;;
      sp1 ← deref s;
      if negb (allocCount sp1 =? 0) then
        unlock;;
        ret false
      else
        mSpanList_remove Nonempty s;;
        unlock;;
        mheap_freeSpan s;;
        ret true.

(** ** Invariants and readings of the log *)

(** The numeric invariant of a span: the fields hold values of their Go
    types, [allocCount <= nelems] and [freeindex <= nelems]. *)
Definition span_inv (sp : mspan) : Prop :=
  0 <= allocCount sp < 2 ^ 16 /\
  allocCount sp <= nelems sp /\
  0 <= freeindex sp <= nelems sp /\
  nelems sp < 2 ^ 63.

(** What a call appended to the log. *)
Definition events_since (st st' : State) : list event :=
  drop (length (trace st)) (trace st').

Definition is_list_op (e : event) : bool :=
  match e with
  | EvRemove _ _ | EvInsert _ _ | EvInsertBack _ _ => true
  | _ => false
  end.

Definition is_sweep (e : event) : bool :=
  match e with EvSweep _ _ => true | _ => false end.

Definition is_heap_live_add (e : event) : bool :=
  match e with EvXaddHeapLive _ => true | _ => false end.

Definition is_heap_free (s : nat) (e : event) : bool :=
  match e with EvHeapFreeSpan s' => bool_decide (s' = s) | _ => false end.

(** Walks a log with the mutex state [held]: every list operation happens
    with the mutex held, no sweep happens with it held, and it is free at
    the end. *)
Fixpoint lock_discipline (held : bool) (evs : list event) : bool :=
  match evs with
  | [] => negb held
  | EvLock :: evs' => negb held && lock_discipline true evs'
  | EvUnlock :: evs' => held && lock_discipline false evs'
  | e :: evs' =>
      (if is_list_op e then held else true)
      && (if is_sweep e then negb held else true)
      && lock_discipline held evs'
  end.

Definition count_events (p : event -> bool) (evs : list event) : nat :=
  length (List.filter p evs).

(** The span is not leased to an mcache: the first test of [freeSpan]. *)
Definition not_cached (st : State) (sp : mspan) : Prop :=
  sweepgen sp <> uint32 (mheap_sweepgen st + 1) /\
  sweepgen sp <> uint32 (mheap_sweepgen st + 3).

(** The span is linked where a call of [freeSpan] expects it: with
    [preserve] on some list of the central; otherwise on the empty list
    and not on the nonempty one if [wasempty], and the other way round if
    not. *)
Definition linked_for (st : State) (s : nat) (preserve wasempty : bool) : Prop :=
  if preserve then s ∈ nonempty (c st) \/ s ∈ empty (c st)
  else if wasempty then s ∈ empty (c st) /\ s ∉ nonempty (c st)
  else s ∈ nonempty (c st) /\ s ∉ empty (c st).

(** The span was cached before the current sweep began. *)
Definition stale (st : State) (sp : mspan) : bool :=
  sweepgen sp =? uint32 (mheap_sweepgen st + 1).

(** The three tests before the return of [cacheSpan]. *)
Definition no_free_objects (sp : mspan) : bool :=
  (int (int (nelems sp) - int (allocCount sp)) =? 0)
  || (freeindex sp =? nelems sp)
  || (uintptr (allocCount sp) =? nelems sp).

(** [emits_only p m]: every run of [m] that returns has appended to the log
    only events that satisfy [p]. *)
Definition emits_only {A} (p : event -> bool) (m : M A) : Prop :=
  forall st a st1,
    m st = Ok a st1 ->
    exists evs, trace st1 = trace st ++ evs /\ forallb p evs = true.

(** Neither counter is added to. *)
Definition no_counter_add (e : event) : bool :=
  match e with
  | EvXaddNmalloc _ | EvXaddHeapLive _ => false
  | _ => true
  end.

Definition is_nmalloc_add (e : event) : bool :=
  match e with EvXaddNmalloc _ => true | _ => false end.

(** The log from [st] to [st1] holds no add to either counter. *)
Definition quiet_from (st st1 : State) : Prop :=
  exists evs, trace st1 = trace st ++ evs /\ forallb no_counter_add evs = true.

(** The span is claimed for sweeping by some other thread. *)
Definition being_swept (st : State) (sg : Z) (x : nat) : Prop :=
  exists spx, spans st !! x = Some spx /\ sweepgen spx = uint32 (sg - 1).

(** ** Sample configurations

    A size class of 8 slots of 1024 bytes in one 8192-byte page, and one of
    170 slots of 48 bytes, which leaves 32 bytes of the page unused. *)

(** A sweeper that finds nothing to free: it stamps the span as swept. *)
Definition sweep_nothing (s : nat) (preserve : bool) : M bool :=
  sg ← gets mheap_sweepgen;
  atomic_Store_sweepgen s sg;;
  ret false.

(** A sweeper that finds all but [k] slots of the span free: it resets
    the scan to the first slot and, as the runtime's sweeper does when it
    has freed something, leaves the stamping to [freeSpan]. *)
Definition sweep_frees_to (k : Z) (s : nat) (preserve : bool) : M bool :=
  sp ← deref s;
  let wasempty := freeindex sp =? nelems sp in
  update_span s (fun sp' => set_freeindex 0 (set_allocCount k sp'));;
  freeSpan s preserve wasempty.

Definition fresh_span (sg : Z) : mspan :=
  {| startAddr := 65536; limit := 0; sweepgen := sg; divMul := 1;
     divShift := 10; divShift2 := 0; nelems := 8; freeindex := 0;
     allocCache := 0; allocCount := 0; elemsize := 1024; needzero := 0 |}.

(** A page heap that hands out one fresh span, at address 7. *)
Definition alloc_at_7 (npages spc : Z) (needzero : bool) : M (option nat) :=
  fun st =>
    match spans st !! 7%nat with
    | Some _ => Ok None st
    | None => Ok (Some 7%nat)
                 (set_spans (insert 7%nat (fresh_span (mheap_sweepgen st))) st)
    end.

Definition rt8 : Runtime :=
  {| _PageShift := 13;
     sizeclass := fun spc => Z.shiftr spc 1;
     class_to_allocnpages := fun _ => 1;
     class_to_size := fun _ => 1024;
     deductSweepCredit := fun _ _ => ret ();
     sweep := sweep_nothing;
     nextFreeIndex := fun sp => (freeindex sp, sp);
     refillAllocCache := fun _ _ => 2 ^ 64 - 1;
     mheap_alloc := alloc_at_7 |}.

Definition rt8_sweeping : Runtime :=
  {| _PageShift := 13;
     sizeclass := fun spc => Z.shiftr spc 1;
     class_to_allocnpages := fun _ => 1;
     class_to_size := fun _ => 1024;
     deductSweepCredit := fun _ _ => ret ();
     sweep := sweep_frees_to 3;
     nextFreeIndex := fun sp => (freeindex sp, sp);
     refillAllocCache := fun _ _ => 2 ^ 64 - 1;
     mheap_alloc := alloc_at_7 |}.

Definition rt48 : Runtime :=
  {| _PageShift := 13;
     sizeclass := fun spc => Z.shiftr spc 1;
     class_to_allocnpages := fun _ => 1;
     class_to_size := fun _ => 48;
     deductSweepCredit := fun _ _ => ret ();
     sweep := sweep_nothing;
     nextFreeIndex := fun sp => (freeindex sp, sp);
     refillAllocCache := fun _ _ => 2 ^ 64 - 1;
     mheap_alloc := fun _ _ _ => ret None |}.

Definition span8 (gen alloc : Z) : mspan :=
  {| startAddr := 65536; limit := 73728; sweepgen := gen; divMul := 1;
     divShift := 10; divShift2 := 0; nelems := 8; freeindex := alloc;
     allocCache := 0; allocCount := alloc; elemsize := 1024; needzero := 0 |}.

Definition span48 (gen alloc : Z) : mspan :=
  {| startAddr := 65536; limit := 73696; sweepgen := gen; divMul := 43691;
     divShift := 4; divShift2 := 17; nelems := 170; freeindex := alloc;
     allocCache := 0; allocCount := alloc; elemsize := 48; needzero := 0 |}.

(** A central with span 1 alone in [l], global sweepgen 4, counters at
    [nm] and [hl]. *)
Definition central_with (l : mlist) (sp : mspan) (nm hl : Z) : State :=
  {| c := put_list l [1%nat]
            {| lock_held := false; spanclass := 10; nonempty := [];
               empty := []; nmalloc := nm |};
     spans := {[ 1%nat := sp ]};
     mheap_sweepgen := 4;
     heap_live := hl;
     trace := [] |}.

(** A central with no span at all. *)
Definition central_bare : State :=
  {| c := {| lock_held := false; spanclass := 10; nonempty := [];
             empty := []; nmalloc := 0 |};
     spans := ∅;
     mheap_sweepgen := 4;
     heap_live := 0;
     trace := [] |}.

(** ** More of mcentral.go *)

Definition set_spanclass (v : Z) (m : mcentral) : mcentral :=
  Mcentral (lock_held m) v (nonempty m) (empty m) (nmalloc m).

(** Modelled from the spec: [mSpanList.init] (mheap.go), which makes the
    list the empty collection. *)
Definition mSpanList_init (l : mlist) : M unit :=
  modify (set_c (put_list l [])).

(** [init]: initialize a single central free list. *)
Definition init (spc : Z) : M unit :=
  modify (set_c (set_spanclass spc));;
  mSpanList_init Nonempty;;
  mSpanList_init Empty.

(** ** More readings of the state and of the log *)

(** Exclusive membership: no span is linked twice, on one list or on
    both. *)
Definition lists_ok (st : State) : Prop :=
  NoDup (nonempty (c st) ++ empty (c st)).

(** The two lists are the same in both states. *)
Definition same_lists (st st1 : State) : Prop :=
  nonempty (c st1) = nonempty (c st) /\ empty (c st1) = empty (c st).

(** Every run of [m] that returns relates the state before to the state
    after by [R]. *)
Definition preserves {A} (R : State -> State -> Prop) (m : M A) : Prop :=
  forall st a st1, m st = Ok a st1 -> R st st1.

(** Walks a log with the mutex state [held] and gives the mutex state at
    the end, or [None] when the protocol is broken: a second [lock], an
    [unlock] of the free mutex, a list operation with the mutex free, or a
    sweep or a call into the page heap with the mutex held. *)
Fixpoint lock_walk (held : bool) (evs : list event) : option bool :=
  match evs with
  | [] => Some held
  | EvLock :: evs' => if held then None else lock_walk true evs'
  | EvUnlock :: evs' => if held then lock_walk false evs' else None
  | (EvRemove _ _ | EvInsert _ _ | EvInsertBack _ _) :: evs' =>
      if held then lock_walk held evs' else None
  | (EvSweep _ _ | EvHeapAlloc _ | EvHeapFreeSpan _) :: evs' =>
      if held then None else lock_walk held evs'
  | _ :: evs' => lock_walk held evs'
  end.

(** Events that the lock protocol says nothing about. *)
Definition lock_neutral (e : event) : bool :=
  match e with
  | EvCas _ _ _ _ | EvStoreSweepgen _ _ | EvXaddNmalloc _
  | EvXaddHeapLive _ => true
  | _ => false
  end.

(** [lock_run h m h']: every run of [m] that returns [a], started with the
    mutex in state [h], keeps the protocol and ends with the mutex in state
    [h' a]. *)
Definition lock_run {A} (h : bool) (m : M A) (h' : A -> bool) : Prop :=
  forall st a st1,
    m st = Ok a st1 ->
    exists evs, trace st1 = trace st ++ evs /\ lock_walk h evs = Some (h' a).

(** The sweeper, called with [preserve], leaves both lists as they are (it
    stamps the span through [freeSpan], which then moves nothing). *)
Definition sweep_keeps_lists (rt : Runtime) : Prop :=
  forall s st b st1, sweep rt s true st = Ok b st1 -> same_lists st st1.

(** The page heap hands out spans that are on no list, and leaves the
    lists as they are. *)
Definition alloc_fresh (rt : Runtime) : Prop :=
  forall n spc z st r st1,
    mheap_alloc rt n spc z st = Ok r st1 ->
    same_lists st st1 /\
    (forall s, r = Some s -> s ∉ nonempty (c st) ++ empty (c st)).

(** Paying sweep credit keeps the lists duplicate-free. *)
Definition credit_keeps_lists_ok (rt : Runtime) : Prop :=
  forall a b st u st1,
    deductSweepCredit rt a b st = Ok u st1 -> lists_ok st -> lists_ok st1.

(** The loop over the empty list stops within [l] without sweeping: the
    spans it meets first are being swept, and then the list ends or a span
    comes that is neither unswept nor being swept. *)
Definition stops_scan (st : State) (sg : Z) (l : list nat) : Prop :=
  exists pre tail,
    l = pre ++ tail /\
    Forall (being_swept st sg) pre /\
    match tail with
    | [] => True
    | x :: _ =>
        exists spx, spans st !! x = Some spx
                    /\ sweepgen spx <> uint32 (sg - 2)
                    /\ sweepgen spx <> uint32 (sg - 1)
    end.

(** The state [st1] in which the loop over the list [from] of [cacheSpan]
    calls the sweeper on the unswept span [s], started in [st] where the
    span's record was [sp]: the span is stamped as being swept and nothing
    else of the store is written; it has left [from] and is the last span
    of the empty list; the mutex is free; the log shows the
    compare-and-swap before the list operations. *)
Definition handed_to_sweeper (from : mlist) (s : nat) (sp : mspan)
    (st st1 : State) : Prop :=
  let sg := mheap_sweepgen st in
  spans st1 = <[s := set_sweepgen (uint32 (sg - 1)) sp]> (spans st) /\
  mheap_sweepgen st1 = sg /\
  nonempty (c st1)
  = match from with
    | Nonempty => filter (λ x, x ≠ s) (nonempty (c st))
    | Empty => nonempty (c st)
    end /\
  empty (c st1)
  = match from with
    | Nonempty => empty (c st)
    | Empty => filter (λ x, x ≠ s) (empty (c st))
    end ++ [s] /\
  lock_held (c st1) = false /\
  nmalloc (c st1) = nmalloc (c st) /\
  heap_live st1 = heap_live st /\
  events_since st st1
  = [EvCas s (uint32 (sg - 2)) (uint32 (sg - 1)) true;
     EvRemove from s; EvInsertBack Empty s; EvUnlock].

(** The span at [x] is unswept: its sweepgen is two behind [sg]. *)
Definition unsweptb (sg : Z) (st : State) (x : nat) : bool :=
  match spans st !! x with
  | Some sp => sweepgen sp =? uint32 (sg - 2)
  | None => false
  end.

(** How many spans of the empty list are unswept. *)
Definition unswept_on_empty (sg : Z) (st : State) : nat :=
  length (List.filter (unsweptb sg st) (empty (c st))).

(** [m] never runs out of retries. *)
Definition finishes {A} (m : M A) : Prop :=
  forall st st', m st <> Unfinished st'.

(** From [st] to [st1] the lists and the global sweepgen are the same and
    no span has become unswept. *)
Definition keeps_swept (sg : Z) (st st1 : State) : Prop :=
  same_lists st st1 /\
  mheap_sweepgen st1 = mheap_sweepgen st /\
  forall x, unsweptb sg st1 x = true -> unsweptb sg st x = true.

(** During the sweep cycle [sg] the sweeper, called with [preserve], leaves
    the lists and the global sweepgen as they are and makes no span
    unswept. *)
Definition sweeper_keeps_swept (rt : Runtime) (sg : Z) : Prop :=
  forall s st b st1,
    mheap_sweepgen st = sg ->
    sweep rt s true st = Ok b st1 -> keeps_swept sg st st1.

(** [nextFreeIndex] leaves the sweepgen of the span alone. *)
Definition nextFreeIndex_keeps_sweepgen (rt : Runtime) : Prop :=
  forall sp, sweepgen (snd (nextFreeIndex rt sp)) = sweepgen sp.




(** * Properties *)

(** ** Stepping through the monad *)

Ltac munfold :=
  cbv [mbind M_bind bind gets modify emit ret throw deref update_span inList
       lock unlock mSpanList_remove mSpanList_insert mSpanList_insertBack
       atomic_Store_sweepgen atomic_Xadd64_nmalloc atomic_Xadd64_heap_live
       atomic_Cas_sweepgen mheap_freeSpan].

Tactic Notation "munfold" "in" hyp(H) :=
  cbv [mbind M_bind bind gets modify emit ret throw deref update_span inList
       lock unlock mSpanList_remove mSpanList_insert mSpanList_insertBack
       atomic_Store_sweepgen atomic_Xadd64_nmalloc atomic_Xadd64_heap_live
       atomic_Cas_sweepgen mheap_freeSpan] in H.

Lemma bind_Ok {A B} (m : M A) (k : A -> M B) st b st' :
  (m ≫= k) st = Ok b st' ->
  exists a st1, m st = Ok a st1 /\ k a st1 = Ok b st'.
Proof.
  cbv [mbind M_bind bind]. destruct (m st) as [a st1| |]; try discriminate.
  intros H. exists a, st1. split; [reflexivity | exact H].
Qed.

(** ** Machine arithmetic *)

Lemma int64_eqm x : eqm (2 ^ 64) (int64 x) x.
Proof.
  unfold eqm, int64.
  rewrite Zminus_mod_idemp_l.
  replace (x + 2 ^ 63 - 2 ^ 63) with x by lia. reflexivity.
Qed.

Lemma uint64_eqm x : eqm (2 ^ 64) (uint64 x) x.
Proof. unfold eqm, uint64. apply Zmod_mod. Qed.

Lemma uintptr_eqm x : eqm (2 ^ 64) (uintptr x) x.
Proof. unfold eqm, uintptr. apply Zmod_mod. Qed.

Lemma uint64_of_eqm x y : eqm (2 ^ 64) x y -> uint64 x = uint64 y.
Proof. intros H. exact H. Qed.

Lemma int64_small x : - 2 ^ 63 <= x < 2 ^ 63 -> int64 x = x.
Proof. intros H. unfold int64. rewrite Z.mod_small; lia. Qed.

Lemma uint64_small x : 0 <= x < 2 ^ 64 -> uint64 x = x.
Proof. intros H. unfold uint64. apply Z.mod_small; lia. Qed.

Lemma uintptr_small x : 0 <= x < 2 ^ 64 -> uintptr x = x.
Proof. intros H. unfold uintptr. apply Z.mod_small; lia. Qed.

(** A sweepgen never equals itself shifted by a small offset. *)
Lemma uint32_offset_ne g k :
  0 <= g < 2 ^ 32 -> 0 < Z.abs k < 2 ^ 32 -> uint32 (g + k) <> g.
Proof.
  intros Hg Hk Heq. unfold uint32 in Heq.
  pose proof (Z.div_mod (g + k) (2 ^ 32)) as Hdm.
  rewrite Heq in Hdm.
  change (2 ^ 32) with 4294967296 in *. lia.
Qed.

Lemma uint32_pred_ne g : uint32 (g - 1) <> uint32 (g - 2).
Proof.
  unfold uint32. intros Heq.
  pose proof (Z.div_mod (g - 1) (2 ^ 32)) as H1.
  pose proof (Z.div_mod (g - 2) (2 ^ 32)) as H2.
  rewrite Heq in H1.
  change (2 ^ 32) with 4294967296 in *. lia.
Qed.

(** The number of free slots as [cacheSpan] and [uncacheSpan] compute it. *)
Lemma free_slots_small sp :
  span_inv sp ->
  int (int (nelems sp) - int (allocCount sp)) = nelems sp - allocCount sp.
Proof.
  intros (Ha & Hle & Hf & Hn). unfold int.
  rewrite (int64_small (nelems sp)) by lia.
  rewrite (int64_small (allocCount sp)) by lia.
  apply int64_small. lia.
Qed.

#[local] Existing Instances eqm_setoid Zplus_eqm Zminus_eqm Zmult_eqm Zopp_eqm.

(** What [uncacheSpan] adds to [heap_live]. *)
Lemma heap_live_undo hl n es :
  uint64 (hl + int64 (int64 (- int64 n) * int64 es)) = uint64 (hl - n * es).
Proof.
  apply uint64_of_eqm. rewrite !int64_eqm.
  replace (hl + - n * es) with (hl - n * es) by lia. reflexivity.
Qed.

(** What [uncacheSpan] adds to [nmalloc]. *)
Lemma nmalloc_undo nm n : uint64 (nm + int64 (- int64 n)) = uint64 (nm - n).
Proof.
  apply uint64_of_eqm. rewrite !int64_eqm.
  replace (nm + - n) with (nm - n) by lia. reflexivity.
Qed.

(** What [cacheSpan] adds to [heap_live]. *)
Lemma heap_live_assume hl sb ub :
  uint64 (hl + int64 (int64 sb - int64 ub)) = uint64 (hl + (sb - ub)).
Proof. apply uint64_of_eqm. rewrite !int64_eqm. reflexivity. Qed.

(** What [cacheSpan] adds to [nmalloc]. *)
Lemma nmalloc_assume nm ne ac :
  uint64 (nm + int64 (int (int ne - int ac))) = uint64 (nm + (ne - ac)).
Proof. apply uint64_of_eqm. unfold int. rewrite !int64_eqm. reflexivity. Qed.

(** ** The log and the lists *)

Lemma events_since_app st st' evs :
  trace st' = trace st ++ evs -> events_since st st' = evs.
Proof. intros H. unfold events_since. rewrite H. apply drop_app_length. Qed.

Ltac since :=
  erewrite !events_since_app
    by (simpl; rewrite <- ?app_assoc; simpl; reflexivity).

Lemma not_elem_of_remove (s : nat) (l : list nat) : s ∉ filter (λ x, x ≠ s) l.
Proof. rewrite list_elem_of_filter. intros [H _]. apply H. reflexivity. Qed.

Lemma remove_absent (s : nat) (l : list nat) :
  s ∉ l -> filter (λ x, x ≠ s) l = l.
Proof.
  induction l as [|x l IH]; intros Hn; [reflexivity|].
  apply not_elem_of_cons in Hn as [Hx Hl].
  rewrite filter_cons_True by congruence. rewrite IH by exact Hl. reflexivity.
Qed.

Lemma final_logged {A} evs (m : M A) st :
  trace (final (logged evs m st)) = trace st ++ evs.
Proof. unfold logged. destruct (m st); reflexivity. Qed.

Lemma final_sweep rt s p st :
  trace (final (mspan_sweep rt s p st)) = trace st ++ [EvSweep s p].
Proof. apply final_logged. Qed.

Lemma final_bind_ret {A} (m : M A) st :
  final ((m ≫= λ _, ret ()) st) = final (m st).
Proof. cbv [mbind M_bind bind ret]. destruct (m st); reflexivity. Qed.

(** ** freeSpan *)

Lemma not_cached_test st sp :
  not_cached st sp ->
  (sweepgen sp =? uint32 (mheap_sweepgen st + 1))
  || (sweepgen sp =? uint32 (mheap_sweepgen st + 3)) = false.
Proof.
  intros [H1 H3]. apply Z.eqb_neq in H1, H3. rewrite H1, H3. reflexivity.
Qed.

(** C7. [freeSpan] on a span leased to an mcache (sweepgen equal to the
    global sweepgen plus 1 or plus 3) dies with "freeSpan given cached
    span", in the very state it was called in: nothing of the central or
    of the span has been written. *)
Theorem freeSpan_cached_span_fatal s preserve wasempty st sp :
  spans st !! s = Some sp ->
  sweepgen sp = uint32 (mheap_sweepgen st + 1)
  \/ sweepgen sp = uint32 (mheap_sweepgen st + 3) ->
  freeSpan s preserve wasempty st = Throw "freeSpan given cached span" st.
Proof.
  intros Hs Hg. unfold freeSpan. munfold. rewrite Hs.
  destruct Hg as [-> | ->]; rewrite ?Z.eqb_refl, ?orb_true_r; reflexivity.
Qed.

Lemma freeSpan_cached_span_fatal_witness :
  freeSpan 1 false true (central_with Empty (span8 7 0) 8 8192)
  = Throw "freeSpan given cached span" (central_with Empty (span8 7 0) 8 8192).
Proof.
  apply (freeSpan_cached_span_fatal 1 false true _ (span8 7 0)).
  - reflexivity.
  - right. reflexivity.
Defined.

(** C10. Once past the cached-span test, [freeSpan] sets [s.needzero] to 1
    whatever happens next: with [preserve] set (also when it then dies on
    an unlinked span), when the span stays in its list, and when it goes
    back to the heap. *)
Theorem freeSpan_sets_needzero s preserve wasempty st sp :
  spans st !! s = Some sp ->
  not_cached st sp ->
  exists sp',
    spans (final (freeSpan s preserve wasempty st)) !! s = Some sp'
    /\ needzero sp' = 1.
Proof.
  intros Hs Hnc. unfold freeSpan. munfold.
  rewrite Hs, (not_cached_test _ _ Hnc).
  destruct preserve; simpl.
  - case_bool_decide; simpl.
    + rewrite lookup_alter_eq, Hs. simpl.
      rewrite !lookup_alter_eq, Hs. simpl. eauto.
    + rewrite lookup_alter_eq, Hs. simpl. eauto.
  - destruct wasempty; simpl;
      rewrite lookup_alter_eq, Hs; simpl; rewrite !lookup_alter_eq, Hs; simpl;
      destruct (allocCount sp =? 0); simpl;
      rewrite !lookup_alter_eq, Hs; simpl; eauto.
Qed.

Lemma freeSpan_sets_needzero_witness :
  exists sp',
    spans (final (freeSpan 1 true false
                    (central_with Empty (span8 4 3) 8 8192))) !! 1%nat
    = Some sp'
    /\ needzero sp' = 1.
Proof.
  apply (freeSpan_sets_needzero 1 true false _ (span8 4 3)).
  - reflexivity.
  - split; vm_compute; discriminate.
Defined.

(** C2, as the code has it. On a span that is not leased, [freeSpan]
    returns, and returns true exactly when [preserve] is false and
    [allocCount] is zero. In every case it writes two fields of the span,
    [sweepgen] (the global sweepgen) and [needzero] (1), and nothing else
    in the store. When it returns true the span is in neither list and was
    handed to the heap once; when it returns false nothing was handed
    over. With [preserve] the central is untouched: no lock, no list
    operation. Without [preserve] and with slots still allocated the lists
    are as they were, up to the move that [wasempty] asks for. *)
Theorem freeSpan_reports_return_to_heap s preserve wasempty st sp :
  spans st !! s = Some sp ->
  not_cached st sp ->
  linked_for st s preserve wasempty ->
  exists b st',
    freeSpan s preserve wasempty st = Ok b st' /\
    (b = true <-> (preserve = false /\ allocCount sp = 0)) /\
    spans st'
      = <[s := set_sweepgen (mheap_sweepgen st) (set_needzero 1 sp)]>
          (spans st) /\
    heap_live st' = heap_live st /\
    nmalloc (c st') = nmalloc (c st) /\
    lock_discipline false (events_since st st') = true /\
    count_events (is_heap_free s) (events_since st st')
      = (if b then 1%nat else 0%nat) /\
    (b = true -> (s ∉ nonempty (c st')) /\ (s ∉ empty (c st'))) /\
    (preserve = true ->
       c st' = c st /\
       events_since st st' = [EvStoreSweepgen s (mheap_sweepgen st)]) /\
    (preserve = false -> allocCount sp <> 0 ->
       nonempty (c st')
         = (if wasempty then s :: nonempty (c st) else nonempty (c st)) /\
       empty (c st')
         = (if wasempty then filter (λ x, x ≠ s) (empty (c st))
            else empty (c st))).
Proof.
  intros Hs Hnc Hlnk.
  assert (preserve = true -> s ∈ nonempty (c st) \/ s ∈ empty (c st)) as Hin
    by (intros ->; exact Hlnk).
  assert (preserve = false -> wasempty = false -> s ∉ empty (c st)) as Hout
    by (intros -> ->; apply Hlnk).
  clear Hlnk.
  assert (alter (set_sweepgen (mheap_sweepgen st)) s
            (alter (set_needzero 1) s (spans st))
          = <[s := set_sweepgen (mheap_sweepgen st) (set_needzero 1 sp)]>
              (spans st)) as Hstore.
  { apply map_eq. intros i. destruct (decide (i = s)) as [->|Hne].
    - rewrite !lookup_alter_eq, Hs, lookup_insert_eq. reflexivity.
    - rewrite !lookup_alter_ne, lookup_insert_ne by congruence. reflexivity. }
  unfold freeSpan. munfold.
  rewrite Hs, (not_cached_test _ _ Hnc).
  destruct preserve; simpl.
  - rewrite bool_decide_true by (apply Hin; reflexivity). simpl.
    rewrite lookup_alter_eq, Hs. simpl.
    eexists _, _. split; [reflexivity|]. simpl. since.
    repeat split; try reflexivity; try discriminate; try exact Hstore;
      intros; intuition congruence.
  - destruct wasempty; simpl;
      rewrite lookup_alter_eq, Hs; simpl; rewrite !lookup_alter_eq, Hs; simpl;
      destruct (Z.eqb_spec (allocCount sp) 0) as [H0|H0]; simpl;
      (eexists _, _; split; [reflexivity|]); simpl;
      since; unfold count_events; simpl;
      rewrite ?bool_decide_true by reflexivity; simpl.
    all: repeat split; try reflexivity; try discriminate; try congruence;
      try exact Hstore;
      intros; try apply not_elem_of_remove; try (intuition congruence).
Qed.

Lemma freeSpan_reports_return_to_heap_witness :
  exists b st',
    freeSpan 1 false true (central_with Empty (span8 4 0) 8 8192) = Ok b st'
    /\ b = true
    /\ (1%nat ∉ nonempty (c st')) /\ (1%nat ∉ empty (c st')).
Proof.
  destruct (freeSpan_reports_return_to_heap 1 false true
              (central_with Empty (span8 4 0) 8 8192) (span8 4 0))
    as (b & st' & Hrun & Hb & _ & _ & _ & _ & _ & Hout & _).
  - reflexivity.
  - split; vm_compute; discriminate.
  - split; [apply list_elem_of_here | apply not_elem_of_nil].
  - exists b, st'. split; [exact Hrun|].
    assert (b = true) as Hb' by (apply Hb; split; reflexivity).
    split; [exact Hb' | apply Hout; exact Hb'].
Defined.

(** C2 as stated fails in one point: with [preserve] set the call does not
    only stamp the sweepgen. A span being swept (sweepgen 3 under global
    sweepgen 4) with [needzero = 0] comes back stamped 4 and with
    [needzero = 1]. *)
Lemma freeSpan_preserve_writes_needzero :
  let st := central_with Empty (span8 3 3) 8 8192 in
  let st' := final (freeSpan 1 true false st) in
  freeSpan 1 true false st = Ok false st'
  /\ spans st' !! 1%nat = Some (set_sweepgen 4 (set_needzero 1 (span8 3 3)))
  /\ spans st' !! 1%nat <> Some (set_sweepgen 4 (span8 3 3)).
Proof. vm_compute. repeat split. discriminate. Qed.

(** ** uncacheSpan *)

(** C6. [uncacheSpan] on a span whose [allocCount] is zero dies with
    "uncaching span but s.allocCount == 0", in the very state it was called
    in: no list was touched and no counter adjusted. *)
Theorem uncacheSpan_zero_allocCount_fatal rt s st sp :
  spans st !! s = Some sp ->
  allocCount sp = 0 ->
  uncacheSpan rt s st = Throw "uncaching span but s.allocCount == 0" st.
Proof.
  intros Hs H0. unfold uncacheSpan. munfold. rewrite Hs, H0. reflexivity.
Qed.

Lemma uncacheSpan_zero_allocCount_fatal_witness :
  uncacheSpan rt8 1 (central_with Empty (span8 7 0) 8 8192)
  = Throw "uncaching span but s.allocCount == 0"
          (central_with Empty (span8 7 0) 8 8192).
Proof.
  apply (uncacheSpan_zero_allocCount_fatal rt8 1 _ (span8 7 0)); reflexivity.
Defined.

(** [uncacheSpan] up to the point where it may sweep: [st1] is the state
    after the counters and the lists are done. *)
Lemma uncacheSpan_run rt s st sp :
  spans st !! s = Some sp ->
  allocCount sp <> 0 ->
  span_inv sp ->
  exists st1,
    uncacheSpan rt s st
      = (if stale st sp then (mspan_sweep rt s false ≫= λ _, ret ()) st1
         else Ok () st1) /\
    spans st1
      = alter (set_sweepgen (if stale st sp
                             then uint32 (mheap_sweepgen st - 1)
                             else mheap_sweepgen st)) s (spans st) /\
    mheap_sweepgen st1 = mheap_sweepgen st /\
    (allocCount sp < nelems sp ->
       nonempty (c st1) = s :: nonempty (c st) /\
       empty (c st1) = filter (λ x, x ≠ s) (empty (c st)) /\
       nmalloc (c st1)
         = uint64 (nmalloc (c st) - (nelems sp - allocCount sp)) /\
       heap_live st1
         = (if stale st sp then heap_live st
            else uint64 (heap_live st
                         - (nelems sp - allocCount sp) * elemsize sp)) /\
       exists g d d',
         trace st1
           = trace st
             ++ [EvStoreSweepgen s g; EvXaddNmalloc d; EvLock;
                 EvRemove Empty s; EvInsert Nonempty s]
             ++ (if stale st sp then [] else [EvXaddHeapLive d'])
             ++ [EvUnlock]) /\
    (allocCount sp = nelems sp ->
       c st1 = c st /\ heap_live st1 = heap_live st /\
       exists g, trace st1 = trace st ++ [EvStoreSweepgen s g]).
Proof.
  intros Hs Ha Hinv.
  pose proof (free_slots_small sp Hinv) as Hn.
  unfold uncacheSpan. munfold. rewrite Hs.
  apply Z.eqb_neq in Ha. rewrite Ha. simpl. rewrite Hn. fold (stale st sp).
  destruct (stale st sp) eqn:Hst; simpl; rewrite Hs; simpl;
    destruct (Z.ltb_spec 0 (nelems sp - allocCount sp)) as [Hlt|Hge];
    simpl; (eexists; split; [reflexivity|]); simpl.
  all: rewrite <- ?app_assoc; simpl.
  all: split; [reflexivity|]; split; [reflexivity|].
  all: split; intros Hc; try lia.
  all: repeat split; eauto using nmalloc_undo, heap_live_undo.
  do 2 eexists. exists 0. reflexivity.
Qed.

(** C3, as the code has it. A released span that still has an unallocated
    slot is taken off the empty list and put on the nonempty list, both
    between [lock] and [unlock]; this is done before any sweep of a stale
    span. A released span with every slot allocated is not moved: both
    lists and the mutex are left alone, the one logged effect is the store
    to its sweepgen. *)
Theorem uncacheSpan_moves_span_with_free_slot rt s st sp :
  spans st !! s = Some sp ->
  allocCount sp <> 0 ->
  span_inv sp ->
  s ∈ empty (c st) ->
  s ∉ nonempty (c st) ->
  exists st1,
    uncacheSpan rt s st
      = (if stale st sp then (mspan_sweep rt s false ≫= λ _, ret ()) st1
         else Ok () st1) /\
    lock_discipline false (events_since st st1) = true /\
    (allocCount sp < nelems sp ->
       (s ∈ nonempty (c st1)) /\ (s ∉ empty (c st1)) /\
       count_events is_list_op (events_since st st1) = 2%nat /\
       exists pre post,
         events_since st st1
           = pre ++ [EvLock; EvRemove Empty s; EvInsert Nonempty s] ++ post
         /\ last post = Some EvUnlock) /\
    (allocCount sp = nelems sp ->
       nonempty (c st1) = nonempty (c st) /\
       empty (c st1) = empty (c st) /\
       (s ∈ empty (c st1)) /\ (s ∉ nonempty (c st1)) /\
       exists g, events_since st st1 = [EvStoreSweepgen s g]).
Proof.
  intros Hs Ha Hinv Hin Hout.
  destruct (uncacheSpan_run rt s st sp Hs Ha Hinv)
    as (st1 & Hrun & _ & _ & Hfree & Hfull).
  exists st1. split; [exact Hrun|].
  assert (allocCount sp < nelems sp \/ allocCount sp = nelems sp) as Hcase
    by (destruct Hinv as (_ & ? & _); lia).
  split; [|split].
  - destruct Hcase as [Hc|Hc].
    + destruct (Hfree Hc) as (_ & _ & _ & _ & g & d & d' & Ht).
      rewrite (events_since_app _ _ _ Ht).
      destruct (stale st sp); reflexivity.
    + destruct (Hfull Hc) as (_ & _ & g & Ht).
      rewrite (events_since_app _ _ _ Ht). reflexivity.
  - intros Hc.
    destruct (Hfree Hc) as (Hne & Hem & _ & _ & g & d & d' & Ht).
    rewrite Hne, Hem, (events_since_app _ _ _ Ht). repeat split.
    + apply list_elem_of_here.
    + apply not_elem_of_remove.
    + destruct (stale st sp); reflexivity.
    + exists [EvStoreSweepgen s g; EvXaddNmalloc d].
      eexists. split; [reflexivity|].
      destruct (stale st sp); reflexivity.
  - intros Hc. destruct (Hfull Hc) as (Hcc & _ & g & Ht).
    rewrite Hcc, (events_since_app _ _ _ Ht).
    repeat split; try assumption. exists g. reflexivity.
Qed.

Lemma uncacheSpan_moves_span_with_free_slot_witness :
  exists st1,
    uncacheSpan rt8 1 (central_with Empty (span8 7 6) 8 8192) = Ok () st1
    /\ (1%nat ∈ nonempty (c st1)) /\ (1%nat ∉ empty (c st1)).
Proof.
  destruct (uncacheSpan_moves_span_with_free_slot rt8 1
              (central_with Empty (span8 7 6) 8 8192) (span8 7 6))
    as (st1 & Hrun & _ & Hfree & _).
  - reflexivity.
  - vm_compute. discriminate.
  - unfold span_inv. simpl. lia.
  - apply list_elem_of_here.
  - apply not_elem_of_nil.
  - exists st1. split; [exact Hrun|].
    destruct Hfree as (H1 & H2 & _); [simpl; lia|]. split; assumption.
Defined.

(** C3 as stated fails: a span with all 8 of its slots allocated is
    released; it is still on the empty list afterwards, the nonempty list
    is still empty, and no list operation was performed. *)
Lemma uncacheSpan_full_span_not_moved :
  let st := central_with Empty (span8 7 8) 8 8192 in
  let st' := final (uncacheSpan rt8 1 st) in
  uncacheSpan rt8 1 st = Ok () st'
  /\ empty (c st') = [1%nat]
  /\ nonempty (c st') = []
  /\ count_events is_list_op (events_since st st') = 0%nat.
Proof. vm_compute. repeat split. Qed.

(** C4. On [uncacheSpan] of a span that holds an allocated slot, with
    [allocCount <= nelems]: the call sweeps the span exactly when the span
    is stale (sweepgen equal to the global sweepgen plus 1). The sweep is
    the last thing the call does, after the list operations and with the
    mutex released. For a stale span [heap_live] reaches the sweeper as it
    was on entry and no add to it is logged; for any other span no sweep
    happens and [heap_live] has gone down by
    [(nelems - allocCount) * elemsize]. *)
Theorem uncacheSpan_sweeps_iff_stale rt s st sp :
  spans st !! s = Some sp ->
  allocCount sp <> 0 ->
  span_inv sp ->
  0 <= heap_live st < 2 ^ 64 ->
  exists st1,
    uncacheSpan rt s st
      = (if stale st sp then (mspan_sweep rt s false ≫= λ _, ret ()) st1
         else Ok () st1) /\
    events_since st (final (uncacheSpan rt s st))
      = events_since st st1
        ++ (if stale st sp then [EvSweep s false] else []) /\
    count_events is_sweep (events_since st st1) = 0%nat /\
    lock_discipline false (events_since st (final (uncacheSpan rt s st)))
      = true /\
    (stale st sp = true ->
       heap_live st1 = heap_live st /\
       count_events is_heap_live_add (events_since st st1) = 0%nat) /\
    (stale st sp = false ->
       heap_live st1
         = uint64 (heap_live st
                   - (nelems sp - allocCount sp) * elemsize sp)).
Proof.
  intros Hs Ha Hinv Hhl.
  destruct (uncacheSpan_run rt s st sp Hs Ha Hinv)
    as (st1 & Hrun & _ & _ & Hfree & Hfull).
  exists st1. split; [exact Hrun|]. rewrite Hrun.
  assert (allocCount sp < nelems sp \/ allocCount sp = nelems sp) as [Hc|Hc]
    by (destruct Hinv as (_ & ? & _); lia).
  - destruct (Hfree Hc) as (_ & _ & _ & Hhl1 & g & d & d' & Ht).
    rewrite (events_since_app _ _ _ Ht).
    destruct (stale st sp) eqn:Hst.
    + erewrite (events_since_app st)
        by (rewrite final_bind_ret, final_sweep, Ht, <- app_assoc; reflexivity).
      repeat split; try reflexivity; try discriminate; intros; exact Hhl1.
    + rewrite app_nil_r. simpl final. rewrite (events_since_app _ _ _ Ht).
      repeat split; try reflexivity; try discriminate; intros; exact Hhl1.
  - destruct (Hfull Hc) as (_ & Hhl1 & g & Ht).
    rewrite (events_since_app _ _ _ Ht).
    destruct (stale st sp) eqn:Hst.
    + erewrite (events_since_app st)
        by (rewrite final_bind_ret, final_sweep, Ht, <- app_assoc; reflexivity).
      repeat split; try reflexivity; try discriminate; intros; exact Hhl1.
    + rewrite app_nil_r. simpl final. rewrite (events_since_app _ _ _ Ht).
      repeat split; try reflexivity; try discriminate. intros.
      rewrite Hhl1, Hc, Z.sub_diag, Z.mul_0_l, Z.sub_0_r, uint64_small;
        [reflexivity | exact Hhl].
Qed.

Lemma uncacheSpan_sweeps_iff_stale_witness :
  exists st1,
    uncacheSpan rt8 1 (central_with Empty (span8 7 6) 8 8192) = Ok () st1
    /\ heap_live st1 = 6144.
Proof.
  destruct (uncacheSpan_sweeps_iff_stale rt8 1
              (central_with Empty (span8 7 6) 8 8192) (span8 7 6))
    as (st1 & Hrun & _ & _ & _ & _ & Hlive).
  - reflexivity.
  - vm_compute. discriminate.
  - unfold span_inv. simpl. lia.
  - simpl. lia.
  - exists st1. split; [exact Hrun|]. rewrite Hlive; reflexivity.
Defined.

(** ** cacheSpan *)

Lemma no_free_objects_inv sp :
  span_inv sp ->
  no_free_objects sp = true
  <-> (allocCount sp = nelems sp \/ freeindex sp = nelems sp).
Proof.
  intros Hinv. unfold no_free_objects.
  rewrite (free_slots_small sp Hinv).
  destruct Hinv as (Ha & Hle & Hf & Hn).
  rewrite uintptr_small by lia.
  rewrite !orb_true_iff, !Z.eqb_eq. lia.
Qed.

Lemma havespan_fatal rt sb s st sp :
  spans st !! s = Some sp ->
  no_free_objects sp = true ->
  havespan rt sb s st = Throw "span has no free objects" st.
Proof.
  intros Hs Hno. unfold havespan. munfold. rewrite Hs.
  fold (no_free_objects sp). rewrite Hno. reflexivity.
Qed.

(** [havespan] when the tests pass: the two counters move, the allocation
    cache is rebuilt, nothing else changes. *)
Lemma havespan_run rt sb s st sp :
  spans st !! s = Some sp ->
  no_free_objects sp = false ->
  exists st' cache,
    havespan rt sb s st = Ok (Some s) st' /\
    spans st' = <[s := set_allocCache cache sp]> (spans st) /\
    mheap_sweepgen st' = mheap_sweepgen st /\
    nonempty (c st') = nonempty (c st) /\
    empty (c st') = empty (c st) /\
    nmalloc (c st')
      = uint64 (nmalloc (c st) + (nelems sp - allocCount sp)) /\
    heap_live st'
      = uint64 (heap_live st
                + (sb - uintptr (uintptr (allocCount sp) * elemsize sp))) /\
    exists d d', trace st' = trace st ++ [EvXaddNmalloc d; EvXaddHeapLive d'].
Proof.
  intros Hs Hno. unfold havespan, mspan_refillAllocCache. munfold. rewrite Hs.
  fold (no_free_objects sp). rewrite Hno. simpl. rewrite Hs. simpl.
  eexists _, _. split; [reflexivity|]. simpl.
  rewrite <- ?app_assoc. simpl.
  repeat split; eauto using nmalloc_assume, heap_live_assume.
  apply map_eq. intros i. destruct (decide (i = s)) as [->|Hne].
  - rewrite !lookup_alter_eq, Hs, lookup_insert_eq. simpl. reflexivity.
  - rewrite !lookup_alter_ne, lookup_insert_ne by congruence. reflexivity.
Qed.

Lemma havespan_Ok rt sb s st r st' :
  havespan rt sb s st = Ok r st' ->
  exists sp,
    spans st !! s = Some sp /\ no_free_objects sp = false /\ r = Some s.
Proof.
  intros H. destruct (spans st !! s) as [sp|] eqn:Hs.
  - exists sp. destruct (no_free_objects sp) eqn:Hno.
    + rewrite (havespan_fatal rt sb s st sp Hs Hno) in H. discriminate.
    + destruct (havespan_run rt sb s st sp Hs Hno) as (st2 & ch & Hrun & _).
      rewrite Hrun in H. injection H as Hr _. auto.
  - unfold havespan in H. munfold in H. rewrite Hs in H. discriminate.
Qed.

(** *** What a call logs *)

Lemma emits_ret {A} p (a : A) : emits_only p (ret a).
Proof.
  intros st a' st1 H. injection H as _ <-. exists [].
  rewrite app_nil_r. auto.
Qed.

Lemma emits_throw {A} p msg : emits_only p (@throw A msg).
Proof. intros st a st1 H. discriminate. Qed.

Lemma emits_gets {A} p (f : State -> A) : emits_only p (gets f).
Proof.
  intros st a' st1 H. injection H as _ <-. exists [].
  rewrite app_nil_r. auto.
Qed.

Lemma emits_modify p (f : State -> State) :
  (forall st, trace (f st) = trace st) -> emits_only p (modify f).
Proof.
  intros Hf st a st1 H. injection H as _ <-. exists [].
  rewrite app_nil_r, Hf. auto.
Qed.

Lemma emits_emit p e : p e = true -> emits_only p (emit e).
Proof.
  intros He st a st1 H. injection H as _ <-. exists [e].
  simpl. rewrite He. auto.
Qed.

Lemma emits_bind {A B} p (m : M A) (k : A -> M B) :
  emits_only p m -> (forall a, emits_only p (k a)) -> emits_only p (m ≫= k).
Proof.
  intros Hm Hk st b st2 H.
  apply bind_Ok in H as (a & st1 & H1 & H2).
  destruct (Hm _ _ _ H1) as (e1 & Ht1 & Hp1).
  destruct (Hk a _ _ _ H2) as (e2 & Ht2 & Hp2).
  exists (e1 ++ e2). rewrite Ht2, Ht1, app_assoc. split; [reflexivity|].
  rewrite forallb_app, Hp1, Hp2. reflexivity.
Qed.

Lemma emits_deref p s : emits_only p (deref s).
Proof.
  intros st a st1 H. unfold deref in H.
  destruct (spans st !! s); [|discriminate].
  injection H as _ <-. exists []. rewrite app_nil_r. auto.
Qed.

Lemma emits_update_span p s f : emits_only p (update_span s f).
Proof. apply emits_modify. reflexivity. Qed.

Create HintDb emits.

#[local] Hint Resolve emits_ret emits_throw emits_gets emits_deref
  emits_update_span : emits.

Ltac emits_step :=
  match goal with
  | |- emits_only _ (_ ≫= _) => apply emits_bind; [|intros ?]
  | |- emits_only _ (if ?b then _ else _) => destruct b
  | |- emits_only _ (match ?x with _ => _ end) => destruct x
  | |- emits_only _ (modify _) => apply emits_modify; reflexivity
  | |- emits_only _ (emit _) => apply emits_emit; reflexivity
  | |- emits_only _ _ => solve [auto with emits]
  end.

Ltac emits_auto := repeat emits_step.

Lemma emits_lock : emits_only no_counter_add lock.
Proof. unfold lock. emits_auto. Qed.

Lemma emits_unlock : emits_only no_counter_add unlock.
Proof. unfold unlock. emits_auto. Qed.

Lemma emits_remove l s : emits_only no_counter_add (mSpanList_remove l s).
Proof. unfold mSpanList_remove. emits_auto. Qed.

Lemma emits_insertBack l s :
  emits_only no_counter_add (mSpanList_insertBack l s).
Proof. unfold mSpanList_insertBack. emits_auto. Qed.

Lemma emits_Cas s old new :
  emits_only no_counter_add (atomic_Cas_sweepgen s old new).
Proof. unfold atomic_Cas_sweepgen. emits_auto. Qed.

Lemma emits_logged {A} p evs (m : M A) :
  forallb p evs = true -> emits_only p (logged evs m).
Proof.
  intros Hp st a st1 H. unfold logged in H.
  destruct (m st); try discriminate.
  injection H as _ <-. exists evs. auto.
Qed.

Lemma emits_sweep rt s p : emits_only no_counter_add (mspan_sweep rt s p).
Proof. apply emits_logged. reflexivity. Qed.

Lemma emits_nextFreeIndex rt s :
  emits_only no_counter_add (mspan_nextFreeIndex rt s).
Proof.
  unfold mspan_nextFreeIndex. emits_step; [auto with emits|].
  destruct (nextFreeIndex rt a). emits_auto.
Qed.

Lemma emits_alloc rt n spc z :
  emits_only no_counter_add (mheap_alloc_ rt n spc z).
Proof. apply emits_logged. reflexivity. Qed.

Lemma emits_credit rt a b :
  emits_only no_counter_add (deductSweepCredit_ rt a b).
Proof. apply emits_logged. reflexivity. Qed.

#[local] Hint Resolve emits_lock emits_unlock emits_remove emits_insertBack
  emits_Cas emits_sweep emits_nextFreeIndex emits_alloc emits_credit : emits.

Lemma emits_grow rt : emits_only no_counter_add (grow rt).
Proof. unfold grow. emits_auto. Qed.

Lemma emits_scan_nonempty rt sg l :
  emits_only no_counter_add (scan_nonempty rt sg l).
Proof.
  induction l as [|s l IH]; simpl; [auto with emits|].
  emits_auto; try exact IH.
Qed.

Lemma emits_scan_empty rt sg l :
  emits_only no_counter_add (scan_empty rt sg l).
Proof.
  induction l as [|s l IH]; simpl; [auto with emits|].
  emits_auto; try exact IH.
Qed.

#[local] Hint Resolve emits_grow emits_scan_nonempty emits_scan_empty : emits.

Lemma quiet_refl st : quiet_from st st.
Proof. exists []. rewrite app_nil_r. auto. Qed.

Lemma quiet_step {A} (m : M A) st st1 a st2 :
  quiet_from st st1 ->
  m st1 = Ok a st2 ->
  emits_only no_counter_add m ->
  quiet_from st st2.
Proof.
  intros (e1 & Ht1 & Hp1) H Hm.
  destruct (Hm _ _ _ H) as (e2 & Ht2 & Hp2).
  exists (e1 ++ e2). rewrite Ht2, Ht1, app_assoc. split; [reflexivity|].
  rewrite forallb_app, Hp1, Hp2. reflexivity.
Qed.

Tactic Notation "run_quiet" hyp(H) hyp(Hq) "as" ident(a) :=
  let st := fresh "st" in
  let Hm := fresh "Hm" in
  apply bind_Ok in H as (a & st & Hm & H);
  apply (quiet_step _ _ _ _ _ Hq) in Hm; [|solve [auto with emits]];
  clear Hq; rename Hm into Hq.

(** Every span [cacheSpan] returns has come through [havespan], and up to
    that point the call has added to neither counter. *)
Lemma cacheSpan_retry_via_havespan rt fuel sg sb st0 st s st' :
  quiet_from st0 st ->
  cacheSpan_retry rt fuel sg sb st = Ok (Some s) st' ->
  exists st1,
    quiet_from st0 st1 /\ havespan rt sb s st1 = Ok (Some s) st'.
Proof.
  revert st. induction fuel as [|fuel IH]; intros st Hq H; [discriminate|].
  simpl in H.
  run_quiet H Hq as ne. run_quiet H Hq as r.
  destruct r as [s0|].
  - destruct (havespan_Ok _ _ _ _ _ _ H) as (sp & _ & _ & Hr).
    injection Hr as ->. eauto.
  - run_quiet H Hq as em. run_quiet H Hq as r'.
    destruct r' as [s0| |].
    + destruct (havespan_Ok _ _ _ _ _ _ H) as (sp & _ & _ & Hr).
      injection Hr as ->. eauto.
    + eauto.
    + run_quiet H Hq as u. run_quiet H Hq as g.
      destruct g as [s0|]; [|discriminate].
      run_quiet H Hq as u1. run_quiet H Hq as u2. run_quiet H Hq as u3.
      destruct (havespan_Ok _ _ _ _ _ _ H) as (sp & _ & _ & Hr).
      injection Hr as ->. eauto.
Qed.

Lemma cacheSpan_via_havespan rt fuel st s st' :
  cacheSpan rt fuel st = Ok (Some s) st' ->
  exists st1,
    quiet_from st st1 /\
    havespan rt (spanBytes_of rt (spanclass (c st))) s st1 = Ok (Some s) st'.
Proof.
  unfold cacheSpan. intros H.
  pose proof (quiet_refl st) as Hq.
  apply bind_Ok in H as (spc & st0 & Hspc & H).
  injection Hspc as Hspc Hst0. subst spc st0.
  run_quiet H Hq as u. run_quiet H Hq as u1. run_quiet H Hq as sg.
  eapply cacheSpan_retry_via_havespan; eassumption.
Qed.

(** C1. A span returned by [cacheSpan] has passed the three tests at
    [havespan] and nothing after them touches [nelems], [allocCount] or
    [freeindex]: in the state [cacheSpan] returns in, [allocCount] and
    [freeindex] both differ from [nelems], so with the span invariant
    ([allocCount <= nelems], [freeindex <= nelems]) both are strictly below
    it. This holds whichever loop or [grow] supplied the span. And when
    [havespan] is reached with a span that has no free slot, the call dies
    with "span has no free objects" and returns nothing. *)
Theorem cacheSpan_returns_span_with_free_slot rt fuel st :
  (forall s st',
     cacheSpan rt fuel st = Ok (Some s) st' ->
     exists sp',
       spans st' !! s = Some sp' /\
       no_free_objects sp' = false /\
       (span_inv sp' ->
        allocCount sp' < nelems sp' /\ freeindex sp' < nelems sp')) /\
  (forall s st1 sp,
     spans st1 !! s = Some sp ->
     span_inv sp ->
     allocCount sp = nelems sp \/ freeindex sp = nelems sp ->
     havespan rt (spanBytes_of rt (spanclass (c st))) s st1
     = Throw "span has no free objects" st1).
Proof.
  split.
  - intros s st' H.
    destruct (cacheSpan_via_havespan _ _ _ _ _ H) as (st1 & _ & Hhave).
    destruct (havespan_Ok _ _ _ _ _ _ Hhave) as (sp & Hs & Hno & _).
    destruct (havespan_run rt (spanBytes_of rt (spanclass (c st))) s st1 sp
                Hs Hno) as (st2 & ch & Hrun & Hsp & _).
    rewrite Hrun in Hhave. injection Hhave as Hst2. subst st2.
    exists (set_allocCache ch sp). split; [|split].
    + rewrite Hsp. apply lookup_insert_eq.
    + exact Hno.
    + intros Hinv.
      assert (~ (allocCount sp = nelems sp \/ freeindex sp = nelems sp)) as Hn.
      { intros Hc. apply (no_free_objects_inv _ Hinv) in Hc.
        change (no_free_objects (set_allocCache ch sp)) with (no_free_objects sp) in Hc.
        congruence. }
      destruct Hinv as (Ha & Hle & Hf & _). simpl in *. lia.
  - intros s st1 sp Hs Hinv Hfull.
    apply (havespan_fatal rt _ s st1 sp Hs).
    apply (no_free_objects_inv _ Hinv). exact Hfull.
Qed.

(** The three ways to a span: taken off the nonempty list, swept on the
    empty list, fresh from [grow]; and the fatal end. *)
Lemma cacheSpan_returns_span_with_free_slot_witness :
  (exists st' sp',
     cacheSpan rt8 1 (central_with Nonempty (span8 4 3) 0 0)
     = Ok (Some 1%nat) st'
     /\ spans st' !! 1%nat = Some sp'
     /\ allocCount sp' < nelems sp' /\ freeindex sp' < nelems sp') /\
  (exists st' sp',
     cacheSpan rt8_sweeping 1 (central_with Empty (span8 2 8) 0 0)
     = Ok (Some 1%nat) st'
     /\ spans st' !! 1%nat = Some sp'
     /\ allocCount sp' < nelems sp' /\ freeindex sp' < nelems sp') /\
  (exists st' sp',
     cacheSpan rt8 1 central_bare = Ok (Some 7%nat) st'
     /\ spans st' !! 7%nat = Some sp'
     /\ allocCount sp' < nelems sp' /\ freeindex sp' < nelems sp') /\
  havespan rt8 8192 1 (central_with Empty (span8 4 8) 0 0)
  = Throw "span has no free objects" (central_with Empty (span8 4 8) 0 0).
Proof.
  split; [|split; [|split]].
  - destruct (cacheSpan_returns_span_with_free_slot rt8 1
                (central_with Nonempty (span8 4 3) 0 0)) as [Hret _].
    pose (st' := final (cacheSpan rt8 1 (central_with Nonempty (span8 4 3) 0 0))).
    assert (cacheSpan rt8 1 (central_with Nonempty (span8 4 3) 0 0)
            = Ok (Some 1%nat) st') as Hrun by (vm_compute; reflexivity).
    destruct (Hret _ _ Hrun) as (sp' & Hsp & _ & Hlt).
    exists st', sp'. split; [exact Hrun|]. split; [exact Hsp|].
    apply Hlt. vm_compute in Hsp. injection Hsp as Hsp. subst sp'.
    unfold span_inv. simpl. lia.
  - destruct (cacheSpan_returns_span_with_free_slot rt8_sweeping 1
                (central_with Empty (span8 2 8) 0 0)) as [Hret _].
    pose (st' := final (cacheSpan rt8_sweeping 1
                          (central_with Empty (span8 2 8) 0 0))).
    assert (cacheSpan rt8_sweeping 1 (central_with Empty (span8 2 8) 0 0)
            = Ok (Some 1%nat) st') as Hrun by (vm_compute; reflexivity).
    destruct (Hret _ _ Hrun) as (sp' & Hsp & _ & Hlt).
    exists st', sp'. split; [exact Hrun|]. split; [exact Hsp|].
    apply Hlt. vm_compute in Hsp. injection Hsp as Hsp. subst sp'.
    unfold span_inv. simpl. lia.
  - destruct (cacheSpan_returns_span_with_free_slot rt8 1 central_bare)
      as [Hret _].
    pose (st' := final (cacheSpan rt8 1 central_bare)).
    assert (cacheSpan rt8 1 central_bare = Ok (Some 7%nat) st') as Hrun
      by (vm_compute; reflexivity).
    destruct (Hret _ _ Hrun) as (sp' & Hsp & _ & Hlt).
    exists st', sp'. split; [exact Hrun|]. split; [exact Hsp|].
    apply Hlt. vm_compute in Hsp. injection Hsp as Hsp. subst sp'.
    unfold span_inv. simpl. lia.
  - destruct (cacheSpan_returns_span_with_free_slot rt8 1
                (central_with Nonempty (span8 4 3) 0 0)) as [_ Hfatal].
    apply (Hfatal 1%nat _ (span8 4 8)).
    + reflexivity.
    + unfold span_inv. simpl. lia.
    + left. reflexivity.
Defined.

Lemma quiet_counts evs :
  forallb no_counter_add evs = true ->
  count_events is_heap_live_add evs = 0%nat
  /\ count_events is_nmalloc_add evs = 0%nat.
Proof.
  unfold count_events. induction evs as [|e evs IH]; simpl; [auto|].
  rewrite andb_true_iff. intros [He Hevs].
  destruct (IH Hevs) as [IH1 IH2].
  destruct e; simpl in *; try discriminate; auto.
Qed.

Lemma count_events_app p e1 e2 :
  count_events p (e1 ++ e2) = (count_events p e1 + count_events p e2)%nat.
Proof. unfold count_events. rewrite List.filter_app, length_app. reflexivity. Qed.

(** C8, as the code has it. On every [cacheSpan] that returns a span, the
    call adds to each counter exactly once, at [havespan]: to [heap_live]
    the byte size of the span minus the bytes of the slots already
    allocated ([allocCount * elemsize]), and to [nmalloc] the number of
    free slots ([nelems - allocCount]). *)
Theorem cacheSpan_adjusts_counters rt fuel st s st' :
  cacheSpan rt fuel st = Ok (Some s) st' ->
  exists st1 sp,
    spans st1 !! s = Some sp /\
    havespan rt (spanBytes_of rt (spanclass (c st))) s st1 = Ok (Some s) st' /\
    count_events is_heap_live_add (events_since st st1) = 0%nat /\
    count_events is_nmalloc_add (events_since st st1) = 0%nat /\
    count_events is_heap_live_add (events_since st st') = 1%nat /\
    count_events is_nmalloc_add (events_since st st') = 1%nat /\
    heap_live st'
      = uint64 (heap_live st1
                + (spanBytes_of rt (spanclass (c st))
                   - uintptr (uintptr (allocCount sp) * elemsize sp))) /\
    nmalloc (c st')
      = uint64 (nmalloc (c st1) + (nelems sp - allocCount sp)).
Proof.
  intros H.
  destruct (cacheSpan_via_havespan _ _ _ _ _ H) as (st1 & Hq & Hhave).
  destruct (havespan_Ok _ _ _ _ _ _ Hhave) as (sp & Hs & Hno & _).
  destruct (havespan_run rt (spanBytes_of rt (spanclass (c st))) s st1 sp
              Hs Hno)
    as (st2 & ch & Hrun & _ & _ & _ & _ & Hnm & Hhl & d & d' & Ht).
  rewrite Hrun in Hhave. injection Hhave as Hst2. subst st2.
  destruct Hq as (evs & Ht1 & Hp).
  destruct (quiet_counts _ Hp) as [Hc1 Hc2].
  exists st1, sp.
  rewrite (events_since_app _ _ _ Ht1).
  erewrite (events_since_app st st')
    by (rewrite Ht, Ht1, <- app_assoc; reflexivity).
  rewrite !count_events_app, Hc1, Hc2.
  repeat split; assumption || reflexivity.
Qed.

Lemma cacheSpan_adjusts_counters_witness :
  let st := central_with Nonempty (span8 4 3) 3 3072 in
  exists st',
    cacheSpan rt8 1 st = Ok (Some 1%nat) st' /\
    exists st1 sp,
      spans st1 !! 1%nat = Some sp /\
      havespan rt8 (spanBytes_of rt8 (spanclass (c st))) 1 st1
      = Ok (Some 1%nat) st' /\
      count_events is_heap_live_add (events_since st st1) = 0%nat /\
      count_events is_nmalloc_add (events_since st st1) = 0%nat /\
      count_events is_heap_live_add (events_since st st') = 1%nat /\
      count_events is_nmalloc_add (events_since st st') = 1%nat /\
      heap_live st'
        = uint64 (heap_live st1
                  + (spanBytes_of rt8 (spanclass (c st))
                     - uintptr (uintptr (allocCount sp) * elemsize sp))) /\
      nmalloc (c st')
        = uint64 (nmalloc (c st1) + (nelems sp - allocCount sp)).
Proof.
  intros st.
  exists (final (cacheSpan rt8 1 st)).
  assert (cacheSpan rt8 1 st = Ok (Some 1%nat) (final (cacheSpan rt8 1 st)))
    as Hrun by (vm_compute; reflexivity).
  split; [exact Hrun|].
  apply (cacheSpan_adjusts_counters rt8 1 st 1%nat _ Hrun).
Defined.

(** C8 as stated fails: a span with 3 of its 8 slots allocated is taken
    from the nonempty list; [heap_live] goes from 3072 to 8192, up by 5120
    and not by the 8192 bytes of the span. *)
Lemma cacheSpan_heap_live_not_full_span :
  let st := central_with Nonempty (span8 4 3) 3 3072 in
  let st' := final (cacheSpan rt8 1 st) in
  cacheSpan rt8 1 st = Ok (Some 1%nat) st'
  /\ spanBytes_of rt8 (spanclass (c st)) = 8192
  /\ heap_live st' - heap_live st = 5120
  /\ heap_live st' <> uint64 (heap_live st + spanBytes_of rt8 (spanclass (c st))).
Proof. vm_compute. repeat split; discriminate. Qed.

(** ** Acquire, then release *)

(** Both loops step over a span that is being swept: the state and the
    log are untouched and the scan goes on with the next span. *)
Lemma scan_nonempty_skips_claimed rt sg s l st :
  being_swept st sg s ->
  scan_nonempty rt sg (s :: l) st = scan_nonempty rt sg l st.
Proof.
  intros (sp & Hs & Hgen). simpl. munfold. rewrite Hs, Hgen.
  destruct (Z.eqb_spec (uint32 (sg - 1)) (uint32 (sg - 2))) as [E|_];
    [destruct (uint32_pred_ne _ E)|].
  simpl. rewrite Hs, Hgen, Z.eqb_refl. reflexivity.
Qed.

Lemma scan_empty_skips_claimed rt sg s l st :
  being_swept st sg s ->
  scan_empty rt sg (s :: l) st = scan_empty rt sg l st.
Proof.
  intros (sp & Hs & Hgen). simpl. munfold. rewrite Hs, Hgen.
  destruct (Z.eqb_spec (uint32 (sg - 1)) (uint32 (sg - 2))) as [E|_];
    [destruct (uint32_pred_ne _ E)|].
  simpl. rewrite Hs, Hgen, Z.eqb_refl. reflexivity.
Qed.

Lemma scan_nonempty_skips_prefix rt sg pre l st :
  Forall (being_swept st sg) pre ->
  scan_nonempty rt sg (pre ++ l) st = scan_nonempty rt sg l st.
Proof.
  induction 1 as [|x pre Hx _ IH]; [reflexivity|].
  rewrite <- app_comm_cons, scan_nonempty_skips_claimed by exact Hx.
  exact IH.
Qed.

(** [cacheSpan] when the first span of the nonempty list that is not being
    swept is already swept: the span goes to the back of the empty list
    and through [havespan]. *)
Lemma cacheSpan_takes_swept_span rt fuel st pre s rest sp :
  nonempty (c st) = pre ++ s :: rest ->
  Forall (being_swept st (mheap_sweepgen st)) pre ->
  spans st !! s = Some sp ->
  0 <= mheap_sweepgen st < 2 ^ 32 ->
  sweepgen sp = mheap_sweepgen st ->
  no_free_objects sp = false ->
  deductSweepCredit rt (spanBytes_of rt (spanclass (c st))) 0 st = Ok () st ->
  exists st1 cache,
    cacheSpan rt (S fuel) st = Ok (Some s) st1 /\
    spans st1 = <[s := set_allocCache cache sp]> (spans st) /\
    mheap_sweepgen st1 = mheap_sweepgen st /\
    nonempty (c st1) = filter (λ x, x ≠ s) (pre ++ s :: rest) /\
    empty (c st1) = empty (c st) ++ [s] /\
    nmalloc (c st1)
      = uint64 (nmalloc (c st) + (nelems sp - allocCount sp)) /\
    heap_live st1
      = uint64 (heap_live st
                + (spanBytes_of rt (spanclass (c st))
                   - uintptr (uintptr (allocCount sp) * elemsize sp))).
Proof.
  intros Hne Hpre Hs Hsg Hgen Hno Hcredit.
  assert ((sweepgen sp =? uint32 (mheap_sweepgen st - 2)) = false) as H2.
  { apply Z.eqb_neq. rewrite Hgen. intros Heq. symmetry in Heq.
    apply (uint32_offset_ne (mheap_sweepgen st) (-2)) in Heq; [auto|lia|].
    change (2 ^ 32) with 4294967296. lia. }
  assert ((sweepgen sp =? uint32 (mheap_sweepgen st - 1)) = false) as H1.
  { apply Z.eqb_neq. rewrite Hgen. intros Heq. symmetry in Heq.
    apply (uint32_offset_ne (mheap_sweepgen st) (-1)) in Heq; [auto|lia|].
    change (2 ^ 32) with 4294967296. lia. }
  unfold cacheSpan, deductSweepCredit_, logged. munfold.
  rewrite Hcredit. simpl.
  munfold. simpl. rewrite Hne.
  rewrite scan_nonempty_skips_prefix by exact Hpre.
  simpl. munfold. simpl.
  rewrite Hs, H2. simpl. rewrite Hs, H1. simpl.
  match goal with
  | |- context [havespan ?r ?sb ?x ?X] =>
      destruct (havespan_run r sb x X sp Hs Hno)
        as (st1 & ch & Hrun & Hsp & Hg & Hn & He & Hnm & Hhl & _)
  end.
  exists st1, ch. simpl in *. rewrite Hne in Hn.
  repeat split; assumption.
Qed.

(** C5, as the code has it. Take the span that [cacheSpan] hands out from
    the nonempty list without sweeping it: the first one that is not being
    swept, already swept, with some but not all of its slots allocated.
    Acquiring it and releasing it at once, with no slot allocated in
    between, gives back the same free-slot count, puts the span back on
    the nonempty list (at its front) and off the empty list, and restores
    [nmalloc]. [heap_live] ends up higher by the bytes of the span that
    hold no slot ([spanBytes - nelems * elemsize]); it is restored when
    the slots fill the span. *)
Theorem cacheSpan_uncacheSpan_round_trip rt fuel st pre s rest sp :
  nonempty (c st) = pre ++ s :: rest ->
  Forall (being_swept st (mheap_sweepgen st)) pre ->
  s ∉ pre ->
  s ∉ rest ->
  s ∉ empty (c st) ->
  spans st !! s = Some sp ->
  0 <= mheap_sweepgen st < 2 ^ 32 ->
  sweepgen sp = mheap_sweepgen st ->
  span_inv sp ->
  0 < allocCount sp < nelems sp ->
  freeindex sp <> nelems sp ->
  0 <= nmalloc (c st) < 2 ^ 64 ->
  deductSweepCredit rt (spanBytes_of rt (spanclass (c st))) 0 st = Ok () st ->
  exists st1 st2 sp2,
    cacheSpan rt (S fuel) st = Ok (Some s) st1 /\
    uncacheSpan rt s st1 = Ok () st2 /\
    spans st2 !! s = Some sp2 /\
    nelems sp2 = nelems sp /\
    allocCount sp2 = allocCount sp /\
    freeindex sp2 = freeindex sp /\
    sweepgen sp2 = sweepgen sp /\
    nonempty (c st2) = s :: pre ++ rest /\
    nonempty (c st2) ≡ₚ nonempty (c st) /\
    empty (c st2) = empty (c st) /\
    nmalloc (c st2) = nmalloc (c st) /\
    heap_live st2
      = uint64 (heap_live st
                + (spanBytes_of rt (spanclass (c st))
                   - nelems sp * elemsize sp)) /\
    (nelems sp * elemsize sp = spanBytes_of rt (spanclass (c st)) ->
     0 <= heap_live st < 2 ^ 64 ->
     heap_live st2 = heap_live st).
Proof.
  intros Hne Hpre Hnpre Hrest Hem Hs Hsg Hgen Hinv Hac Hfi Hnm Hcredit.
  assert (no_free_objects sp = false) as Hno.
  { destruct (no_free_objects sp) eqn:E; [|reflexivity].
    apply (no_free_objects_inv _ Hinv) in E. lia. }
  destruct (cacheSpan_takes_swept_span rt fuel st pre s rest sp
              Hne Hpre Hs Hsg Hgen Hno Hcredit)
    as (st1 & ch & Hrun1 & Hsp1 & Hg1 & Hne1 & Hem1 & Hnm1 & Hhl1).
  assert (spans st1 !! s = Some (set_allocCache ch sp)) as Hs1
    by (rewrite Hsp1; apply lookup_insert_eq).
  assert (stale st1 (set_allocCache ch sp) = false) as Hst.
  { unfold stale. simpl. rewrite Hg1, Hgen. apply Z.eqb_neq.
    intros Heq. symmetry in Heq.
    apply (uint32_offset_ne (mheap_sweepgen st) 1) in Heq; [auto|lia|].
    change (2 ^ 32) with 4294967296. lia. }
  destruct (uncacheSpan_run rt s st1 (set_allocCache ch sp) Hs1)
    as (st2 & Hrun2 & Hsp2 & _ & Hfree & _);
    [simpl; lia | exact Hinv |].
  rewrite Hst in Hrun2, Hsp2, Hfree. simpl in Hfree.
  destruct Hfree as (Hne2 & Hem2 & Hnm2 & Hhl2 & _); [lia|].
  exists st1, st2, (set_sweepgen (mheap_sweepgen st1) (set_allocCache ch sp)).
  split; [exact Hrun1|]. split; [exact Hrun2|].
  split; [rewrite Hsp2, lookup_alter_eq, Hs1; reflexivity|].
  simpl. rewrite Hg1.
  assert (nmalloc (c st2) = nmalloc (c st)) as Hnm'.
  { rewrite Hnm2, Hnm1. rewrite <- (uint64_small (nmalloc (c st))) at 2 by lia.
    apply uint64_of_eqm. rewrite uint64_eqm.
    replace (nmalloc (c st) + (nelems sp - allocCount sp)
             - (nelems sp - allocCount sp)) with (nmalloc (c st)) by lia.
    reflexivity. }
  assert (heap_live st2
          = uint64 (heap_live st
                    + (spanBytes_of rt (spanclass (c st))
                       - nelems sp * elemsize sp))) as Hhl'.
  { rewrite Hhl2, Hhl1. apply uint64_of_eqm.
    rewrite uint64_eqm, !uintptr_eqm.
    match goal with
    | |- eqm _ ?a ?b => replace a with b by lia
    end. reflexivity. }
  assert (nonempty (c st2) = s :: pre ++ rest) as Hne'.
  { rewrite Hne2, Hne1, filter_app, remove_absent by exact Hnpre.
    rewrite filter_cons_False by auto.
    rewrite remove_absent by exact Hrest. reflexivity. }
  repeat split; try reflexivity; try (symmetry; exact Hgen); try assumption.
  - rewrite Hne', Hne. apply Permutation_middle.
  - rewrite Hem2, Hem1, filter_app, remove_absent by exact Hem.
    rewrite filter_cons_False by auto. apply app_nil_r.
  - intros Hfill Hhl. rewrite Hhl', Hfill, Z.sub_diag, Z.add_0_r.
    apply uint64_small. exact Hhl.
Qed.

Lemma cacheSpan_uncacheSpan_round_trip_witness :
  let st := central_with Nonempty (span8 4 3) 3 3072 in
  exists st1 st2,
    cacheSpan rt8 1 st = Ok (Some 1%nat) st1 /\
    uncacheSpan rt8 1 st1 = Ok () st2 /\
    nonempty (c st2) = nonempty (c st) /\
    empty (c st2) = empty (c st) /\
    nmalloc (c st2) = nmalloc (c st) /\
    heap_live st2 = heap_live st.
Proof.
  intros st.
  destruct (cacheSpan_uncacheSpan_round_trip rt8 0 st [] 1%nat [] (span8 4 3))
    as (st1 & st2 & sp2 & H1 & H2 & _ & _ & _ & _ & _ & Hne & _ & Hem & Hnm
        & _ & Hhl).
  - reflexivity.
  - apply Forall_nil_2.
  - apply not_elem_of_nil.
  - apply not_elem_of_nil.
  - apply not_elem_of_nil.
  - reflexivity.
  - simpl. lia.
  - reflexivity.
  - unfold span_inv. simpl. lia.
  - simpl. lia.
  - simpl. lia.
  - simpl. lia.
  - reflexivity.
  - exists st1, st2. repeat split; try assumption.
    apply Hhl; [reflexivity | simpl; lia].
Defined.

(** C5 as stated fails in three ways. A span fresh from [grow] has no
    allocated slot, and releasing it at once is fatal. A span of 170 slots
    of 48 bytes leaves 32 bytes of its page unused: acquiring and releasing
    it leaves [heap_live] 32 bytes higher than before. And a full, unswept
    span on the empty list, of which the sweep on acquire frees 5 slots,
    ends up on the nonempty list with 5 free slots. *)
Lemma cacheSpan_uncacheSpan_round_trip_fails :
  (let st1 := final (cacheSpan rt8 1 central_bare) in
   cacheSpan rt8 1 central_bare = Ok (Some 7%nat) st1
   /\ uncacheSpan rt8 7 st1
      = Throw "uncaching span but s.allocCount == 0" st1)
  /\
  (let st := central_with Nonempty (span48 4 100) 100 4800 in
   let st1 := final (cacheSpan rt48 1 st) in
   let st2 := final (uncacheSpan rt48 1 st1) in
   cacheSpan rt48 1 st = Ok (Some 1%nat) st1
   /\ uncacheSpan rt48 1 st1 = Ok () st2
   /\ heap_live st = 4800
   /\ heap_live st2 = 4832)
  /\
  (let st := central_with Empty (span8 2 8) 8 8192 in
   let st1 := final (cacheSpan rt8_sweeping 1 st) in
   let st2 := final (uncacheSpan rt8_sweeping 1 st1) in
   cacheSpan rt8_sweeping 1 st = Ok (Some 1%nat) st1
   /\ uncacheSpan rt8_sweeping 1 st1 = Ok () st2
   /\ (allocCount <$> (spans st !! 1%nat)) = Some 8
   /\ (allocCount <$> (spans st2 !! 1%nat)) = Some 3
   /\ empty (c st) = [1%nat] /\ nonempty (c st) = []
   /\ empty (c st2) = [] /\ nonempty (c st2) = [1%nat]).
Proof. vm_compute. repeat split. Qed.

(** * More properties *)

(** ** The lock protocol *)

Lemma lock_walk_app h e1 e2 :
  lock_walk h (e1 ++ e2)
  = match lock_walk h e1 with Some h1 => lock_walk h1 e2 | None => None end.
Proof.
  revert h. induction e1 as [|e e1 IH]; intros h; [reflexivity|].
  destruct e, h; simpl; auto.
Qed.

Lemma lock_walk_neutral h evs :
  forallb lock_neutral evs = true -> lock_walk h evs = Some h.
Proof.
  induction evs as [|e evs IH]; [reflexivity|]. simpl.
  rewrite andb_true_iff. intros [He Hevs].
  destruct e; simpl in *; try discriminate; auto.
Qed.

Lemma lock_run_bind {A B} h (m : M A) h1 (k : A -> M B) h2 :
  lock_run h m h1 ->
  (forall a, lock_run (h1 a) (k a) h2) ->
  lock_run h (m ≫= k) h2.
Proof.
  intros Hm Hk st b st2 H.
  apply bind_Ok in H as (a & st1 & H1 & H2).
  destruct (Hm _ _ _ H1) as (e1 & Ht1 & Hw1).
  destruct (Hk a _ _ _ H2) as (e2 & Ht2 & Hw2).
  exists (e1 ++ e2). rewrite Ht2, Ht1, app_assoc. split; [reflexivity|].
  rewrite lock_walk_app, Hw1. exact Hw2.
Qed.

Lemma lock_run_neutral {A} h (m : M A) :
  emits_only lock_neutral m -> lock_run h m (fun _ => h).
Proof.
  intros Hm st a st1 H. destruct (Hm _ _ _ H) as (evs & Ht & Hp).
  exists evs. split; [exact Ht | apply lock_walk_neutral; exact Hp].
Qed.

Lemma lock_run_ret {A} h (a : A) (h' : A -> bool) :
  h' a = h -> lock_run h (ret a) h'.
Proof.
  intros Hh st a' st1 H. injection H as <- <-. exists [].
  rewrite app_nil_r, Hh. auto.
Qed.

Lemma lock_run_throw {A} h msg (h' : A -> bool) : lock_run h (throw msg) h'.
Proof. intros st a st1 H. discriminate. Qed.

Lemma lock_run_one {A} h (m : M A) e h1 :
  (forall st a st1, m st = Ok a st1 -> trace st1 = trace st ++ [e]) ->
  lock_walk h [e] = Some h1 ->
  lock_run h m (fun _ => h1).
Proof.
  intros Hm Hw st a st1 H. exists [e]. split; [eapply Hm; exact H | exact Hw].
Qed.

Lemma lock_run_lock : lock_run false lock (fun _ => true).
Proof.
  apply (lock_run_one _ _ EvLock); [|reflexivity].
  intros st a st1 H. injection H as _ <-. reflexivity.
Qed.

Lemma lock_run_unlock : lock_run true unlock (fun _ => false).
Proof.
  apply (lock_run_one _ _ EvUnlock); [|reflexivity].
  intros st a st1 H. injection H as _ <-. reflexivity.
Qed.

Lemma lock_run_remove l s :
  lock_run true (mSpanList_remove l s) (fun _ => true).
Proof.
  apply (lock_run_one _ _ (EvRemove l s)); [|reflexivity].
  intros st a st1 H. injection H as _ <-. reflexivity.
Qed.

Lemma lock_run_insert l s :
  lock_run true (mSpanList_insert l s) (fun _ => true).
Proof.
  apply (lock_run_one _ _ (EvInsert l s)); [|reflexivity].
  intros st a st1 H. injection H as _ <-. reflexivity.
Qed.

Lemma lock_run_insertBack l s :
  lock_run true (mSpanList_insertBack l s) (fun _ => true).
Proof.
  apply (lock_run_one _ _ (EvInsertBack l s)); [|reflexivity].
  intros st a st1 H. injection H as _ <-. reflexivity.
Qed.

Lemma lock_run_logged {A} (m : M A) e :
  lock_walk false [e] = Some false ->
  lock_run false (logged [e] m) (fun _ => false).
Proof.
  intros Hw. apply (lock_run_one _ _ e); [|exact Hw].
  intros st a st1 H. unfold logged in H.
  destruct (m st); try discriminate. injection H as _ <-. reflexivity.
Qed.

Lemma lock_run_sweep rt s p :
  lock_run false (mspan_sweep rt s p) (fun _ => false).
Proof. apply lock_run_logged. reflexivity. Qed.

Lemma lock_run_alloc rt n spc z :
  lock_run false (mheap_alloc_ rt n spc z) (fun _ => false).
Proof. apply lock_run_logged. reflexivity. Qed.

Lemma lock_run_heap_free s :
  lock_run false (mheap_freeSpan s) (fun _ => false).
Proof.
  apply (lock_run_one _ _ (EvHeapFreeSpan s)); [|reflexivity].
  intros st a st1 H. injection H as _ <-. reflexivity.
Qed.

Lemma neutral_Cas s old new :
  emits_only lock_neutral (atomic_Cas_sweepgen s old new).
Proof. unfold atomic_Cas_sweepgen. emits_auto. Qed.

Lemma neutral_Store s v : emits_only lock_neutral (atomic_Store_sweepgen s v).
Proof. unfold atomic_Store_sweepgen. emits_auto. Qed.

Lemma neutral_Xadd_nmalloc d :
  emits_only lock_neutral (atomic_Xadd64_nmalloc d).
Proof. unfold atomic_Xadd64_nmalloc. emits_auto. Qed.

Lemma neutral_Xadd_heap_live d :
  emits_only lock_neutral (atomic_Xadd64_heap_live d).
Proof. unfold atomic_Xadd64_heap_live. emits_auto. Qed.

Lemma neutral_credit rt a b :
  emits_only lock_neutral (deductSweepCredit_ rt a b).
Proof. apply emits_logged. reflexivity. Qed.

Lemma neutral_inList s : emits_only lock_neutral (inList s).
Proof. unfold inList. emits_auto. Qed.

#[local] Hint Resolve neutral_Cas neutral_Store neutral_Xadd_nmalloc
  neutral_Xadd_heap_live neutral_credit neutral_inList : emits.

Lemma neutral_refill rt s w :
  emits_only lock_neutral (mspan_refillAllocCache rt s w).
Proof. unfold mspan_refillAllocCache. emits_auto. Qed.

Lemma neutral_nextFreeIndex rt s :
  emits_only lock_neutral (mspan_nextFreeIndex rt s).
Proof.
  unfold mspan_nextFreeIndex. emits_step; [auto with emits|].
  destruct (nextFreeIndex rt a). emits_auto.
Qed.

#[local] Hint Resolve neutral_refill neutral_nextFreeIndex : emits.

Lemma neutral_havespan rt sb s : emits_only lock_neutral (havespan rt sb s).
Proof. unfold havespan. emits_auto. Qed.

#[local] Hint Resolve neutral_havespan : emits.

Create HintDb locks.

#[local] Hint Resolve lock_run_lock lock_run_unlock lock_run_remove
  lock_run_insert lock_run_insertBack lock_run_sweep lock_run_alloc
  lock_run_heap_free lock_run_throw : locks.

Ltac lock_neutral_tac := apply lock_run_neutral; solve [emits_auto].

Ltac lock_step :=
  match goal with
  | |- lock_run ?h ((if _ then _ else _) ≫= _) _ =>
      apply (lock_run_bind h _ (fun _ => h)); [|intros ?]
  | |- lock_run _ (_ ≫= _) _ => eapply lock_run_bind; [|intros ?]
  | |- lock_run _ (ret _) _ => apply lock_run_ret; reflexivity
  | |- lock_run _ _ _ => solve [auto with locks]
  | |- lock_run _ _ _ => lock_neutral_tac
  | |- lock_run _ (if ?b then _ else _) _ => destruct b
  | |- lock_run _ (match ?x with _ => _ end) _ => destruct x
  end.

Ltac lock_auto := repeat lock_step.

Lemma lock_run_grow rt : lock_run false (grow rt) (fun _ => false).
Proof. unfold grow. lock_auto. Qed.

Lemma lock_run_havespan rt sb s :
  lock_run false (havespan rt sb s) (fun _ => false).
Proof. lock_neutral_tac. Qed.

#[local] Hint Resolve lock_run_grow lock_run_havespan : locks.

Lemma lock_run_scan_nonempty rt sg l :
  lock_run true (scan_nonempty rt sg l)
    (fun r => match r with Some _ => false | None => true end).
Proof.
  induction l as [|s l IH]; simpl; [lock_auto|].
  lock_auto; try exact IH.
Qed.

Lemma lock_run_scan_empty rt sg l :
  lock_run true (scan_empty rt sg l)
    (fun r => match r with GotoHavespan _ => false | _ => true end).
Proof.
  induction l as [|s l IH]; simpl; [lock_auto|].
  lock_auto; try exact IH.
Qed.

#[local] Hint Resolve lock_run_scan_nonempty lock_run_scan_empty : locks.

Lemma lock_run_cacheSpan_retry rt fuel sg sb :
  lock_run true (cacheSpan_retry rt fuel sg sb) (fun _ => false).
Proof.
  induction fuel as [|fuel IH]; simpl.
  - intros st a st1 H. discriminate.
  - lock_auto; try exact IH.
Qed.

Lemma lock_run_cacheSpan rt fuel :
  lock_run false (cacheSpan rt fuel) (fun _ => false).
Proof.
  pose proof (lock_run_cacheSpan_retry rt fuel) as Hretry.
  unfold cacheSpan. lock_auto.
Qed.

Lemma lock_run_uncacheSpan rt s :
  lock_run false (uncacheSpan rt s) (fun _ => false).
Proof. unfold uncacheSpan. lock_auto. Qed.

Lemma lock_run_freeSpan s preserve wasempty :
  lock_run false (freeSpan s preserve wasempty) (fun _ => false).
Proof. unfold freeSpan. lock_auto. Qed.

(** X1. Every run of [cacheSpan], [uncacheSpan] or [freeSpan] that returns
    has kept the lock protocol: the mutex is free on entry and on return,
    it is never taken twice, every list operation happens while it is
    held, and every sweep and every call into the page heap ([mheap_.alloc]
    in [grow], [mheap_.freeSpan]) happens while it is free. *)
Theorem lock_protocol_kept rt :
  (forall fuel st r st',
     cacheSpan rt fuel st = Ok r st' ->
     lock_walk false (events_since st st') = Some false) /\
  (forall s st r st',
     uncacheSpan rt s st = Ok r st' ->
     lock_walk false (events_since st st') = Some false) /\
  (forall s preserve wasempty st r st',
     freeSpan s preserve wasempty st = Ok r st' ->
     lock_walk false (events_since st st') = Some false).
Proof.
  split; [|split].
  - intros fuel st r st' H.
    destruct (lock_run_cacheSpan rt fuel _ _ _ H) as (evs & Ht & Hw).
    rewrite (events_since_app _ _ _ Ht). exact Hw.
  - intros s st r st' H.
    destruct (lock_run_uncacheSpan rt s _ _ _ H) as (evs & Ht & Hw).
    rewrite (events_since_app _ _ _ Ht). exact Hw.
  - intros s preserve wasempty st r st' H.
    destruct (lock_run_freeSpan s preserve wasempty _ _ _ H)
      as (evs & Ht & Hw).
    rewrite (events_since_app _ _ _ Ht). exact Hw.
Qed.

Lemma lock_protocol_kept_witness :
  (let st := central_with Empty (span8 2 8) 0 0 in
   let st' := final (cacheSpan rt8_sweeping 1 st) in
   cacheSpan rt8_sweeping 1 st = Ok (Some 1%nat) st'
   /\ lock_walk false (events_since st st') = Some false) /\
  (let st := central_with Empty (span8 5 6) 8 8192 in
   let st' := final (uncacheSpan rt8 1 st) in
   uncacheSpan rt8 1 st = Ok () st'
   /\ lock_walk false (events_since st st') = Some false) /\
  (let st := central_with Empty (span8 4 0) 8 8192 in
   let st' := final (freeSpan 1 false true st) in
   freeSpan 1 false true st = Ok true st'
   /\ lock_walk false (events_since st st') = Some false).
Proof.
  destruct (lock_protocol_kept rt8_sweeping) as (Hc & _ & _).
  destruct (lock_protocol_kept rt8) as (_ & Hu & Hf).
  split; [|split]; intros st st'.
  - assert (cacheSpan rt8_sweeping 1 st = Ok (Some 1%nat) st') as Hrun
      by (vm_compute; reflexivity).
    split; [exact Hrun | exact (Hc _ _ _ _ Hrun)].
  - assert (uncacheSpan rt8 1 st = Ok () st') as Hrun
      by (vm_compute; reflexivity).
    split; [exact Hrun | exact (Hu _ _ _ _ Hrun)].
  - assert (freeSpan 1 false true st = Ok true st') as Hrun
      by (vm_compute; reflexivity).
    split; [exact Hrun | exact (Hf _ _ _ _ _ _ Hrun)].
Defined.

(** ** Exclusive membership *)

#[local] Instance same_lists_refl : Reflexive same_lists.
Proof. intros st. split; reflexivity. Qed.

#[local] Instance same_lists_trans : Transitive same_lists.
Proof.
  intros a b d [H1 H2] [H3 H4]. split; [rewrite H3 | rewrite H4]; assumption.
Qed.

Lemma same_lists_ok st st1 : same_lists st st1 -> lists_ok st -> lists_ok st1.
Proof. intros [H1 H2]. unfold lists_ok. rewrite H1, H2. auto. Qed.

Lemma preserves_bind {A B} R `{!Transitive R} (m : M A) (k : A -> M B) :
  preserves R m -> (forall a, preserves R (k a)) -> preserves R (m ≫= k).
Proof.
  intros Hm Hk st b st2 H.
  apply bind_Ok in H as (a & st1 & H1 & H2).
  transitivity st1; [eapply Hm | eapply Hk]; eassumption.
Qed.

Lemma preserves_ret {A} R `{!Reflexive R} (a : A) : preserves R (ret a).
Proof. intros st a' st1 H. injection H as _ <-. reflexivity. Qed.

Lemma preserves_throw {A} R msg : preserves R (@throw A msg).
Proof. intros st a st1 H. discriminate. Qed.

Lemma preserves_gets {A} R `{!Reflexive R} (f : State -> A) :
  preserves R (gets f).
Proof. intros st a' st1 H. injection H as _ <-. reflexivity. Qed.

Lemma preserves_modify R (f : State -> State) :
  (forall st, R st (f st)) -> preserves R (modify f).
Proof. intros Hf st a st1 H. injection H as _ <-. apply Hf. Qed.

Lemma preserves_deref R `{!Reflexive R} s : preserves R (deref s).
Proof.
  intros st a st1 H. unfold deref in H.
  destruct (spans st !! s); [|discriminate].
  injection H as _ <-. reflexivity.
Qed.

Lemma preserves_logged {A} R (evs : list event) (m : M A) :
  (forall st t, R st (set_trace t st)) ->
  (forall a b d, R a b -> R b d -> R a d) ->
  preserves R m -> preserves R (logged evs m).
Proof.
  intros Ht Htr Hm st a st1 H. unfold logged in H.
  destruct (m st) as [a' st'| |] eqn:E; try discriminate.
  injection H as _ <-. eapply Htr; [eapply Hm; exact E | apply Ht].
Qed.

Ltac pres_step :=
  match goal with
  | |- preserves _ (_ ≫= _) => apply preserves_bind; [exact _| |intros ?]
  | |- preserves _ (if ?b then _ else _) => destruct b
  | |- preserves _ (match ?x with _ => _ end) => destruct x
  | |- preserves _ (ret _) => apply preserves_ret; exact _
  | |- preserves _ (throw _) => apply preserves_throw
  | |- preserves _ (gets _) => apply preserves_gets; exact _
  | |- preserves _ (deref _) => apply preserves_deref; exact _
  | |- preserves _ (modify _) =>
      apply preserves_modify; intros ?; split; reflexivity
  | |- preserves _ (emit _) =>
      apply preserves_modify; intros ?; split; reflexivity
  | |- preserves _ (update_span _ _) =>
      apply preserves_modify; intros ?; split; reflexivity
  | |- preserves _ _ => solve [auto with lists]
  end.

Ltac pres_auto := repeat pres_step.

Create HintDb lists.

Lemma lists_lock : preserves same_lists lock.
Proof. unfold lock. pres_auto. Qed.

Lemma lists_unlock : preserves same_lists unlock.
Proof. unfold unlock. pres_auto. Qed.

Lemma lists_Cas s old new :
  preserves same_lists (atomic_Cas_sweepgen s old new).
Proof. unfold atomic_Cas_sweepgen. pres_auto. Qed.

Lemma lists_Store s v : preserves same_lists (atomic_Store_sweepgen s v).
Proof. unfold atomic_Store_sweepgen. pres_auto. Qed.

Lemma lists_Xadd_nmalloc d : preserves same_lists (atomic_Xadd64_nmalloc d).
Proof. unfold atomic_Xadd64_nmalloc. pres_auto. Qed.

Lemma lists_Xadd_heap_live d :
  preserves same_lists (atomic_Xadd64_heap_live d).
Proof. unfold atomic_Xadd64_heap_live. pres_auto. Qed.

Lemma lists_heap_free s : preserves same_lists (mheap_freeSpan s).
Proof. unfold mheap_freeSpan. pres_auto. Qed.

Lemma lists_inList s : preserves same_lists (inList s).
Proof. unfold inList. pres_auto. Qed.

#[local] Hint Resolve lists_lock lists_unlock lists_Cas lists_Store
  lists_Xadd_nmalloc lists_Xadd_heap_live lists_heap_free lists_inList : lists.

Lemma lists_refill rt s w :
  preserves same_lists (mspan_refillAllocCache rt s w).
Proof. unfold mspan_refillAllocCache. pres_auto. Qed.

Lemma lists_nextFreeIndex rt s :
  preserves same_lists (mspan_nextFreeIndex rt s).
Proof.
  unfold mspan_nextFreeIndex. pres_step; [pres_auto|].
  destruct (nextFreeIndex rt a). pres_auto.
Qed.

#[local] Hint Resolve lists_refill lists_nextFreeIndex : lists.

Lemma lists_havespan rt sb s : preserves same_lists (havespan rt sb s).
Proof. unfold havespan. pres_auto. Qed.

Lemma lists_sweep rt s :
  sweep_keeps_lists rt -> preserves same_lists (mspan_sweep rt s true).
Proof.
  intros Hsw. apply preserves_logged.
  - intros st t. split; reflexivity.
  - intros a b d. apply same_lists_trans.
  - intros st b st1 H. eapply Hsw. exact H.
Qed.

#[local] Hint Resolve lists_havespan lists_sweep : lists.

Lemma NoDup_remove (s : nat) (l : list nat) :
  NoDup l -> NoDup (filter (λ x, x ≠ s) l).
Proof. apply NoDup_filter. Qed.

Lemma elem_of_remove (s x : nat) (l : list nat) :
  x ∈ filter (λ y, y ≠ s) l <-> x ≠ s /\ x ∈ l.
Proof. rewrite list_elem_of_filter. tauto. Qed.

Lemma NoDup_move_back (ne em : list nat) s :
  NoDup (ne ++ em) -> s ∈ ne ->
  NoDup (filter (λ x, x ≠ s) ne ++ (em ++ [s])).
Proof.
  rewrite !NoDup_app. intros (Hne & Hd & Hem) Hs.
  split; [apply NoDup_remove; exact Hne|]. split.
  - intros x Hx. apply elem_of_remove in Hx as [Hxs Hx].
    rewrite elem_of_app, list_elem_of_singleton.
    intros [H|H]; [exact (Hd x Hx H) | exact (Hxs H)].
  - split; [exact Hem|]. split; [|apply NoDup_singleton].
    intros x Hx. rewrite list_elem_of_singleton. intros ->.
    exact (Hd s Hs Hx).
Qed.

Lemma NoDup_rotate_back (ne em : list nat) s :
  NoDup (ne ++ em) -> s ∈ em ->
  NoDup (ne ++ (filter (λ x, x ≠ s) em ++ [s])).
Proof.
  rewrite !NoDup_app. intros (Hne & Hd & Hem) Hs.
  split; [exact Hne|]. split.
  - intros x Hx. rewrite elem_of_app, elem_of_remove, list_elem_of_singleton.
    intros [[_ H]| ->]; [exact (Hd x Hx H) | exact (Hd s Hx Hs)].
  - split; [apply NoDup_remove; exact Hem|]. split; [|apply NoDup_singleton].
    intros x Hx. apply elem_of_remove in Hx as [Hxs _].
    rewrite list_elem_of_singleton. exact Hxs.
Qed.

Lemma NoDup_move_front (ne em : list nat) s :
  NoDup (ne ++ em) -> s ∈ em ->
  NoDup ((s :: ne) ++ filter (λ x, x ≠ s) em).
Proof.
  rewrite <- app_comm_cons, NoDup_cons, !NoDup_app.
  intros (Hne & Hd & Hem) Hs. split.
  - rewrite elem_of_app, elem_of_remove.
    intros [H|[H _]]; [exact (Hd s H Hs) | exact (H eq_refl)].
  - split; [exact Hne|]. split; [|apply NoDup_remove; exact Hem].
    intros x Hx H. apply elem_of_remove in H as [_ H]. exact (Hd x Hx H).
Qed.

Lemma NoDup_drop (ne em : list nat) s :
  NoDup (ne ++ em) -> NoDup (filter (λ x, x ≠ s) ne ++ em).
Proof.
  rewrite !NoDup_app. intros (Hne & Hd & Hem).
  split; [apply NoDup_remove; exact Hne|]. split; [|exact Hem].
  intros x Hx. apply elem_of_remove in Hx as [_ Hx]. exact (Hd x Hx).
Qed.

Lemma NoDup_push_back (ne em : list nat) s :
  NoDup (ne ++ em) -> s ∉ ne ++ em -> NoDup (ne ++ (em ++ [s])).
Proof.
  intros Hnd Hs. rewrite app_assoc. apply NoDup_app.
  split; [exact Hnd|]. split; [|apply NoDup_singleton].
  intros x Hx. rewrite list_elem_of_singleton. intros ->. exact (Hs Hx).
Qed.

(** What the list operations do to the two lists. *)
Lemma remove_Ok l s st a st1 :
  mSpanList_remove l s st = Ok a st1 ->
  nonempty (c st1)
    = (match l with
       | Nonempty => filter (λ x, x ≠ s) (nonempty (c st))
       | Empty => nonempty (c st)
       end) /\
  empty (c st1)
    = (match l with
       | Nonempty => empty (c st)
       | Empty => filter (λ x, x ≠ s) (empty (c st))
       end).
Proof. intros H. injection H as _ <-. destruct l; split; reflexivity. Qed.

Lemma insertBack_Ok l s st a st1 :
  mSpanList_insertBack l s st = Ok a st1 ->
  nonempty (c st1)
    = (match l with
       | Nonempty => nonempty (c st) ++ [s]
       | Empty => nonempty (c st)
       end) /\
  empty (c st1)
    = (match l with
       | Nonempty => empty (c st)
       | Empty => empty (c st) ++ [s]
       end).
Proof. intros H. injection H as _ <-. destruct l; split; reflexivity. Qed.

Lemma insert_Ok l s st a st1 :
  mSpanList_insert l s st = Ok a st1 ->
  nonempty (c st1)
    = (match l with
       | Nonempty => s :: nonempty (c st)
       | Empty => nonempty (c st)
       end) /\
  empty (c st1)
    = (match l with
       | Nonempty => empty (c st)
       | Empty => s :: empty (c st)
       end).
Proof. intros H. injection H as _ <-. destruct l; split; reflexivity. Qed.

Lemma last_snoc_nat (l : list nat) s : last (l ++ [s]) = Some s.
Proof. apply last_snoc. Qed.

(** X2. [freeSpan] keeps membership exclusive. From lists that hold no
    span twice, called on a span that is not leased and is linked where the
    call expects it, it leaves lists that hold no span twice; no other
    span changes list; and a span that is kept without [preserve] is then
    on the nonempty list and not on the empty one. *)
Theorem freeSpan_keeps_exclusive_membership s preserve wasempty st sp :
  spans st !! s = Some sp ->
  not_cached st sp ->
  linked_for st s preserve wasempty ->
  lists_ok st ->
  exists b st',
    freeSpan s preserve wasempty st = Ok b st' /\
    lists_ok st' /\
    (forall x, x ≠ s ->
       (x ∈ nonempty (c st') <-> x ∈ nonempty (c st)) /\
       (x ∈ empty (c st') <-> x ∈ empty (c st))) /\
    (preserve = false -> b = false ->
       (s ∈ nonempty (c st')) /\ (s ∉ empty (c st'))).
Proof.
  intros Hs Hnc Hlnk Hok. unfold lists_ok in *.
  unfold freeSpan. munfold. rewrite Hs, (not_cached_test _ _ Hnc).
  destruct preserve; simpl.
  - simpl in Hlnk. rewrite bool_decide_true by exact Hlnk. simpl.
    rewrite lookup_alter_eq, Hs. simpl.
    eexists _, _. split; [reflexivity|]. simpl.
    split; [exact Hok|]. split; [intros; tauto | discriminate].
  - destruct wasempty; simpl in Hlnk; destruct Hlnk as [Hin Hout]; simpl;
      rewrite lookup_alter_eq, Hs; simpl; rewrite !lookup_alter_eq, Hs; simpl;
      destruct (Z.eqb_spec (allocCount sp) 0) as [H0|H0]; simpl;
      (eexists _, _; split; [reflexivity|]); simpl.
    + (* moved to nonempty, then freed *)
      rewrite filter_cons_False by auto.
      rewrite (remove_absent s (nonempty (c st))) by exact Hout.
      split; [|split].
      * pose proof (NoDup_move_front _ _ s Hok Hin) as H.
        rewrite <- app_comm_cons in H. apply NoDup_cons in H as [_ H]. exact H.
      * intros x Hx. rewrite elem_of_remove. tauto.
      * discriminate.
    + (* moved to nonempty, kept *)
      split; [exact (NoDup_move_front _ _ s Hok Hin)|]. split.
      * intros x Hx. rewrite elem_of_cons, elem_of_remove. tauto.
      * intros _ _. split; [apply list_elem_of_here | apply not_elem_of_remove].
    + (* on nonempty, freed *)
      split; [exact (NoDup_drop _ _ s Hok)|]. split.
      * intros x Hx. rewrite elem_of_remove. tauto.
      * discriminate.
    + (* on nonempty, kept *)
      split; [exact Hok|]. split; [intros; tauto | intros _ _; auto].
Qed.

Lemma freeSpan_keeps_exclusive_membership_witness :
  let st := central_with Empty (span8 4 3) 8 8192 in
  exists b st',
    freeSpan 1 false true st = Ok b st' /\
    lists_ok st' /\
    (forall x, x ≠ 1%nat ->
       (x ∈ nonempty (c st') <-> x ∈ nonempty (c st)) /\
       (x ∈ empty (c st') <-> x ∈ empty (c st))) /\
    (false = false -> b = false ->
       (1%nat ∈ nonempty (c st')) /\ (1%nat ∉ empty (c st'))).
Proof.
  intros st.
  apply (freeSpan_keeps_exclusive_membership 1 false true st (span8 4 3)).
  - reflexivity.
  - split; vm_compute; discriminate.
  - split; [apply list_elem_of_here | apply not_elem_of_nil].
  - unfold lists_ok. simpl. apply NoDup_singleton.
Defined.

(** X3. [uncacheSpan] keeps membership exclusive. From lists that hold no
    span twice, releasing a span that sits on the empty list leaves, when
    the list work is done (and before any sweep of a stale span), lists
    that hold no span twice, with no other span moved; the released span
    is on exactly one list, the nonempty one if it has a free slot and the
    empty one if not. *)
Theorem uncacheSpan_keeps_exclusive_membership rt s st sp :
  spans st !! s = Some sp ->
  allocCount sp <> 0 ->
  span_inv sp ->
  s ∈ empty (c st) ->
  lists_ok st ->
  exists st1,
    uncacheSpan rt s st
      = (if stale st sp then (mspan_sweep rt s false ≫= λ _, ret ()) st1
         else Ok () st1) /\
    lists_ok st1 /\
    (forall x, x ≠ s ->
       (x ∈ nonempty (c st1) <-> x ∈ nonempty (c st)) /\
       (x ∈ empty (c st1) <-> x ∈ empty (c st))) /\
    (if allocCount sp <? nelems sp
     then (s ∈ nonempty (c st1)) /\ (s ∉ empty (c st1))
     else (s ∈ empty (c st1)) /\ (s ∉ nonempty (c st1))).
Proof.
  intros Hs Ha Hinv Hin Hok.
  destruct (uncacheSpan_run rt s st sp Hs Ha Hinv)
    as (st1 & Hrun & _ & _ & Hfree & Hfull).
  exists st1. split; [exact Hrun|]. unfold lists_ok in *.
  destruct (Z.ltb_spec (allocCount sp) (nelems sp)) as [Hc|Hc].
  - destruct (Hfree Hc) as (Hne & Hem & _). rewrite Hne, Hem.
    split; [exact (NoDup_move_front _ _ s Hok Hin)|]. split.
    + intros x Hx. rewrite elem_of_cons, elem_of_remove. tauto.
    + split; [apply list_elem_of_here | apply not_elem_of_remove].
  - assert (allocCount sp = nelems sp) as Hc'
      by (destruct Hinv as (_ & ? & _); lia).
    destruct (Hfull Hc') as (Hcc & _). rewrite Hcc.
    split; [exact Hok|]. split; [intros; tauto|].
    split; [exact Hin|].
    apply NoDup_app in Hok as (_ & Hd & _).
    intros Hne. exact (Hd s Hne Hin).
Qed.

Lemma uncacheSpan_keeps_exclusive_membership_witness :
  let st := central_with Empty (span8 7 6) 8 8192 in
  exists st1,
    uncacheSpan rt8 1 st = Ok () st1 /\
    lists_ok st1 /\
    (1%nat ∈ nonempty (c st1)) /\ (1%nat ∉ empty (c st1)).
Proof.
  intros st.
  destruct (uncacheSpan_keeps_exclusive_membership rt8 1 st (span8 7 6))
    as (st1 & Hrun & Hok & _ & Hs).
  - reflexivity.
  - vm_compute. discriminate.
  - unfold span_inv. simpl. lia.
  - apply list_elem_of_here.
  - unfold lists_ok. simpl. apply NoDup_singleton.
  - exists st1. split; [exact Hrun|]. split; [exact Hok | exact Hs].
Defined.

(** *** The two loops and the lists *)

Lemma deref_Ok s st sp st1 :
  deref s st = Ok sp st1 -> st1 = st /\ spans st !! s = Some sp.
Proof.
  unfold deref. destruct (spans st !! s); [|discriminate].
  intros H. injection H as <- <-. auto.
Qed.

Lemma lists_claim s (b : bool) v1 v2 :
  preserves same_lists
    (if b then atomic_Cas_sweepgen s v1 v2 else ret false).
Proof. destruct b; pres_auto. Qed.

Ltac inv_bind H :=
  let a := fresh "a" in
  let st := fresh "st" in
  let Hm := fresh "Hm" in
  apply bind_Ok in H as (a & st & Hm & H).

(** The span taken off the nonempty list is then the last of the empty
    list; when none is taken the lists are as they were. *)
Lemma scan_nonempty_lists rt sg l st r st' :
  sweep_keeps_lists rt ->
  lists_ok st ->
  l ⊆ nonempty (c st) ->
  scan_nonempty rt sg l st = Ok r st' ->
  match r with
  | None => same_lists st st'
  | Some s =>
      lists_ok st' /\ last (empty (c st')) = Some s /\ s ∉ nonempty (c st')
  end.
Proof.
  intros Hsw. revert st. induction l as [|s l IH]; intros st Hok Hsub H.
  - injection H as <- <-. reflexivity.
  - simpl in H.
    apply bind_Ok in H as (sp & st0 & Hd & H).
    apply deref_Ok in Hd as [-> _].
    apply bind_Ok in H as (claimed & st1 & Hc & H).
    apply lists_claim in Hc. destruct Hc as [Hn1 He1].
    assert (s ∈ nonempty (c st1)) as Hin
      by (rewrite Hn1; apply Hsub, list_elem_of_here).
    assert (NoDup (nonempty (c st1) ++ empty (c st1))) as Hok1
      by (rewrite Hn1, He1; exact Hok).
    assert (forall st2 st3 st4 u1 u2 u3,
              mSpanList_remove Nonempty s st1 = Ok u1 st2 ->
              mSpanList_insertBack Empty s st2 = Ok u2 st3 ->
              unlock st3 = Ok u3 st4 ->
              lists_ok st4 /\ last (empty (c st4)) = Some s
              /\ s ∉ nonempty (c st4)) as Hmove.
    { intros st2 st3 st4 u1 u2 u3 Hr Hi Hu.
      apply remove_Ok in Hr as [Hn2 He2].
      apply insertBack_Ok in Hi as [Hn3 He3].
      apply lists_unlock in Hu as [Hn4 He4].
      unfold lists_ok. rewrite Hn4, He4, Hn3, He3, Hn2, He2.
      split; [exact (NoDup_move_back _ _ s Hok1 Hin)|].
      split; [apply last_snoc | apply not_elem_of_remove]. }
    destruct claimed.
    + apply bind_Ok in H as (u1 & st2 & Hr & H).
      apply bind_Ok in H as (u2 & st3 & Hi & H).
      apply bind_Ok in H as (u3 & st4 & Hu & H).
      apply bind_Ok in H as (b & st5 & Hs & H).
      injection H as <- <-.
      destruct (Hmove _ _ _ _ _ _ Hr Hi Hu) as (Hok4 & Hl4 & Hn4).
      apply (lists_sweep rt s Hsw) in Hs. destruct Hs as [Hn5 He5].
      unfold lists_ok. rewrite Hn5, He5. auto.
    + apply bind_Ok in H as (sp1 & st2 & Hd & H).
      apply deref_Ok in Hd as [-> _].
      destruct (sweepgen sp1 =? uint32 (sg - 1)).
      * assert (lists_ok st1) as Hok1' by exact Hok1.
        assert (l ⊆ nonempty (c st1)) as Hsub1.
        { rewrite Hn1. intros x Hx. apply Hsub. right. exact Hx. }
        specialize (IH st1 Hok1' Hsub1 H).
        destruct r as [s0|]; [exact IH|].
        destruct IH as [Hn He]. split; [rewrite Hn | rewrite He]; assumption.
      * apply bind_Ok in H as (u1 & st2 & Hr & H).
        apply bind_Ok in H as (u2 & st3 & Hi & H).
        apply bind_Ok in H as (u3 & st4 & Hu & H).
        injection H as <- <-.
        exact (Hmove _ _ _ _ _ _ Hr Hi Hu).
Qed.

Lemma scan_empty_lists rt sg l st r st' :
  sweep_keeps_lists rt ->
  lists_ok st ->
  l ⊆ empty (c st) ->
  scan_empty rt sg l st = Ok r st' ->
  match r with
  | LoopDone => same_lists st st'
  | GotoRetry => lists_ok st'
  | GotoHavespan s =>
      lists_ok st' /\ last (empty (c st')) = Some s /\ s ∉ nonempty (c st')
  end.
Proof.
  intros Hsw. revert st. induction l as [|s l IH]; intros st Hok Hsub H.
  - injection H as <- <-. reflexivity.
  - simpl in H.
    apply bind_Ok in H as (sp & st0 & Hd & H).
    apply deref_Ok in Hd as [-> _].
    apply bind_Ok in H as (claimed & st1 & Hc & H).
    apply lists_claim in Hc. destruct Hc as [Hn1 He1].
    assert (s ∈ empty (c st1)) as Hin
      by (rewrite He1; apply Hsub, list_elem_of_here).
    assert (NoDup (nonempty (c st1) ++ empty (c st1))) as Hok1
      by (rewrite Hn1, He1; exact Hok).
    destruct claimed.
    + apply bind_Ok in H as (u1 & st2 & Hr & H).
      apply bind_Ok in H as (u2 & st3 & Hi & H).
      apply bind_Ok in H as (u3 & st4 & Hu & H).
      apply bind_Ok in H as (b & st5 & Hs & H).
      apply bind_Ok in H as (fi & st6 & Hf & H).
      apply bind_Ok in H as (sp1 & st7 & Hd & H).
      apply deref_Ok in Hd as [-> _].
      apply remove_Ok in Hr as [Hn2 He2].
      apply insertBack_Ok in Hi as [Hn3 He3].
      apply lists_unlock in Hu as [Hn4 He4].
      apply (lists_sweep rt s Hsw) in Hs. destruct Hs as [Hn5 He5].
      apply lists_nextFreeIndex in Hf as [Hn6 He6].
      assert (nonempty (c st6) = nonempty (c st1)) as Hn
        by (rewrite Hn6, Hn5, Hn4, Hn3, Hn2; reflexivity).
      assert (empty (c st6)
              = filter (λ x, x ≠ s) (empty (c st1)) ++ [s]) as He
        by (rewrite He6, He5, He4, He3, He2; reflexivity).
      assert (lists_ok st6) as Hok6.
      { unfold lists_ok. rewrite Hn, He.
        exact (NoDup_rotate_back _ _ s Hok1 Hin). }
      assert (s ∉ nonempty (c st6)) as Hout.
      { rewrite Hn. apply NoDup_app in Hok1 as (_ & Hd & _).
        intros Hx. exact (Hd s Hx Hin). }
      destruct (negb (fi =? nelems sp1)).
      * apply bind_Ok in H as (u4 & st7 & Hup & H).
        injection H as <- <-.
        injection Hup as _ <-. simpl.
        unfold lists_ok in *. simpl. rewrite He.
        split; [rewrite <- He; exact Hok6|].
        split; [apply last_snoc | exact Hout].
      * apply bind_Ok in H as (u4 & st7 & Hl & H).
        injection H as <- <-.
        apply lists_lock in Hl as [Hn7 He7].
        unfold lists_ok in *. rewrite Hn7, He7. exact Hok6.
    + apply bind_Ok in H as (sp1 & st2 & Hd & H).
      apply deref_Ok in Hd as [-> _].
      destruct (sweepgen sp1 =? uint32 (sg - 1)).
      * assert (l ⊆ empty (c st1)) as Hsub1.
        { rewrite He1. intros x Hx. apply Hsub. right. exact Hx. }
        specialize (IH st1 Hok1 Hsub1 H).
        destruct r as [s0| |]; try exact IH.
        destruct IH as [Hn He]. split; [rewrite Hn | rewrite He]; assumption.
      * injection H as <- <-. split; assumption.
Qed.

Lemma grow_lists rt st g st' :
  alloc_fresh rt ->
  grow rt st = Ok g st' ->
  same_lists st st' /\
  (forall s, g = Some s -> s ∉ nonempty (c st) ++ empty (c st)).
Proof.
  intros Hal H. unfold grow in H.
  apply bind_Ok in H as (spc & st0 & Hg & H). injection Hg as _ <-.
  apply bind_Ok in H as (r & st1 & Ha & H).
  unfold mheap_alloc_, logged in Ha.
  destruct (mheap_alloc rt _ _ _ st) as [r' st1'| |] eqn:E; try discriminate.
  injection Ha as -> <-.
  destruct (Hal _ _ _ _ _ _ E) as [[Hn He] Hfresh].
  destruct r as [s|].
  - apply bind_Ok in H as (sp & st2 & Hd & H).
    apply deref_Ok in Hd as [-> _].
    apply bind_Ok in H as (u & st3 & Hu & H).
    injection Hu as _ <-. injection H as <- <-.
    split; [split; simpl; assumption|].
    intros s0 Hs0. apply Hfresh. exact Hs0.
  - injection H as <- <-. split; [split; simpl; assumption|].
    intros s0 Hs0. discriminate.
Qed.

Lemma havespan_lists rt sb s st r st' :
  havespan rt sb s st = Ok r st' -> same_lists st st' /\ r = Some s.
Proof.
  intros H. split; [exact (lists_havespan rt sb s _ _ _ H)|].
  destruct (havespan_Ok _ _ _ _ _ _ H) as (sp & _ & _ & Hr). exact Hr.
Qed.

Lemma cacheSpan_retry_lists rt fuel sg sb st r st' :
  sweep_keeps_lists rt ->
  alloc_fresh rt ->
  lists_ok st ->
  cacheSpan_retry rt fuel sg sb st = Ok r st' ->
  lists_ok st' /\
  (forall s, r = Some s ->
     last (empty (c st')) = Some s /\ s ∉ nonempty (c st')).
Proof.
  intros Hsw Hal. revert st.
  induction fuel as [|fuel IH]; intros st Hok H; [discriminate|].
  simpl in H.
  apply bind_Ok in H as (ne & st0 & Hg & H). injection Hg as <- <-.
  apply bind_Ok in H as (r1 & st1 & Hscan & H).
  apply (scan_nonempty_lists rt sg _ _ _ _ Hsw Hok) in Hscan; [|reflexivity].
  destruct r1 as [s1|].
  - destruct Hscan as (Hok1 & Hl1 & Hn1).
    apply havespan_lists in H as [[Hn He] ->].
    unfold lists_ok in *. rewrite Hn, He. split; [exact Hok1|].
    intros s Hs. injection Hs as <-. auto.
  - assert (lists_ok st1) as Hok1 by (eapply same_lists_ok; eassumption).
    apply bind_Ok in H as (em & st2 & Hg & H). injection Hg as <- <-.
    apply bind_Ok in H as (r2 & st3 & Hscan2 & H).
    apply (scan_empty_lists rt sg _ _ _ _ Hsw Hok1) in Hscan2; [|reflexivity].
    destruct r2 as [s2| |].
    + destruct Hscan2 as (Hok3 & Hl3 & Hn3).
      apply havespan_lists in H as [[Hn He] ->].
      unfold lists_ok in *. rewrite Hn, He. split; [exact Hok3|].
      intros s Hs. injection Hs as <-. auto.
    + exact (IH st3 Hscan2 H).
    + assert (lists_ok st3) as Hok3 by (eapply same_lists_ok; eassumption).
      apply bind_Ok in H as (u & st4 & Hu & H).
      apply lists_unlock in Hu.
      assert (lists_ok st4) as Hok4 by (eapply same_lists_ok; eassumption).
      apply bind_Ok in H as (g & st5 & Hgrow & H).
      apply (grow_lists rt _ _ _ Hal) in Hgrow as [Hsame Hfresh].
      assert (lists_ok st5) as Hok5 by (eapply same_lists_ok; eassumption).
      destruct g as [s|].
      * apply bind_Ok in H as (u1 & st6 & Hl & H).
        apply bind_Ok in H as (u2 & st7 & Hi & H).
        apply bind_Ok in H as (u3 & st8 & Hu2 & H).
        apply lists_lock in Hl as [Hn6 He6].
        apply insertBack_Ok in Hi as [Hn7 He7].
        apply lists_unlock in Hu2 as [Hn8 He8].
        apply havespan_lists in H as [[Hn He] ->].
        destruct Hsame as [Hn5 He5].
        assert (s ∉ nonempty (c st5) ++ empty (c st5)) as Hs5
          by (rewrite Hn5, He5; apply Hfresh; reflexivity).
        unfold lists_ok in *.
        rewrite Hn, He, Hn8, He8, Hn7, He7, Hn6, He6.
        split; [exact (NoDup_push_back _ _ s Hok5 Hs5)|].
        intros s0 Hs0. injection Hs0 as <-.
        split; [apply last_snoc|].
        intros Hx. apply Hs5. apply elem_of_app. left. exact Hx.
      * injection H as <- <-. split; [exact Hok5|]. intros s Hs. discriminate.
Qed.

(** X4. [cacheSpan] keeps membership exclusive and queues what it hands
    out. With a sweeper that (called with [preserve]) leaves the lists
    alone, a page heap whose spans are on no list, and sweep credit paid
    without breaking the lists: from lists that hold no span twice, every
    run of [cacheSpan] that returns leaves lists that hold no span twice,
    and a span it returns is the last span of the empty list and is not on
    the nonempty list. *)
Theorem cacheSpan_keeps_exclusive_membership rt fuel st r st' :
  sweep_keeps_lists rt ->
  alloc_fresh rt ->
  credit_keeps_lists_ok rt ->
  lists_ok st ->
  cacheSpan rt fuel st = Ok r st' ->
  lists_ok st' /\
  (forall s, r = Some s ->
     last (empty (c st')) = Some s /\ s ∉ nonempty (c st')).
Proof.
  intros Hsw Hal Hcr Hok H. unfold cacheSpan in H.
  apply bind_Ok in H as (spc & st0 & Hg & H). injection Hg as <- <-.
  apply bind_Ok in H as (u & st1 & Hc & H).
  assert (lists_ok st1) as Hok1.
  { unfold deductSweepCredit_, logged in Hc.
    destruct (deductSweepCredit rt _ _ st) as [u' st1'| |] eqn:E;
      try discriminate.
    injection Hc as _ <-. exact (Hcr _ _ _ _ _ E Hok). }
  apply bind_Ok in H as (u1 & st2 & Hl & H).
  apply lists_lock in Hl.
  assert (lists_ok st2) as Hok2 by (eapply same_lists_ok; eassumption).
  apply bind_Ok in H as (sg & st3 & Hg & H). injection Hg as <- <-.
  exact (cacheSpan_retry_lists rt fuel _ _ _ _ _ Hsw Hal Hok2 H).
Qed.

Lemma cacheSpan_keeps_exclusive_membership_witness :
  let st := central_with Nonempty (span48 4 100) 100 4800 in
  exists st',
    cacheSpan rt48 1 st = Ok (Some 1%nat) st' /\
    lists_ok st' /\
    last (empty (c st')) = Some 1%nat /\ (1%nat ∉ nonempty (c st')).
Proof.
  intros st.
  pose (st' := final (cacheSpan rt48 1 st)).
  assert (cacheSpan rt48 1 st = Ok (Some 1%nat) st') as Hrun
    by (vm_compute; reflexivity).
  destruct (cacheSpan_keeps_exclusive_membership rt48 1 st (Some 1%nat) st')
    as [Hok Hs].
  - intros s st0 b st1 H. simpl in H. unfold sweep_nothing in H.
    revert H. apply (preserves_bind same_lists); [pres_auto|].
    intros sg. pres_auto.
  - intros n spc z st0 r st1 H. injection H as <- <-.
    split; [reflexivity | discriminate].
  - intros a b st0 u st1 H. injection H as _ <-. auto.
  - unfold lists_ok. simpl. apply NoDup_singleton.
  - exact Hrun.
  - exists st'. split; [exact Hrun|]. split; [exact Hok|].
    apply Hs. reflexivity.
Defined.

(** ** Releasing a lease *)

Lemma uint32_diff_ne a b : 0 < b - a < 2 ^ 32 -> uint32 a <> uint32 b.
Proof.
  unfold uint32. intros Hd Heq.
  pose proof (Z.div_mod a (2 ^ 32)) as H1.
  pose proof (Z.div_mod b (2 ^ 32)) as H2.
  rewrite Heq in H1.
  change (2 ^ 32) with 4294967296 in *. lia.
Qed.

(** X5. Release ends the lease in the span's sweepgen. When [uncacheSpan]
    is done with the lists, the span no longer carries a cached sweepgen,
    so [freeSpan] accepts it. A span that was not stale is stamped swept
    (the global sweepgen). A stale one is stamped as being swept (the
    global sweepgen minus 1) before the sweeper is called: until swept it
    cannot be allocated from, both loops of [cacheSpan] step over it. *)
Theorem uncacheSpan_ends_lease rt s st sp :
  spans st !! s = Some sp ->
  allocCount sp <> 0 ->
  span_inv sp ->
  0 <= mheap_sweepgen st < 2 ^ 32 ->
  exists st1 sp1,
    uncacheSpan rt s st
      = (if stale st sp then (mspan_sweep rt s false ≫= λ _, ret ()) st1
         else Ok () st1) /\
    spans st1 !! s = Some sp1 /\
    mheap_sweepgen st1 = mheap_sweepgen st /\
    not_cached st1 sp1 /\
    (stale st sp = false -> sweepgen sp1 = mheap_sweepgen st1) /\
    (stale st sp = true ->
       sweepgen sp1 = uint32 (mheap_sweepgen st1 - 1) /\
       forall l,
         scan_nonempty rt (mheap_sweepgen st1) (s :: l) st1
         = scan_nonempty rt (mheap_sweepgen st1) l st1 /\
         scan_empty rt (mheap_sweepgen st1) (s :: l) st1
         = scan_empty rt (mheap_sweepgen st1) l st1).
Proof.
  intros Hs Ha Hinv Hsg.
  destruct (uncacheSpan_run rt s st sp Hs Ha Hinv)
    as (st1 & Hrun & Hsp & Hg & _).
  exists st1. eexists. split; [exact Hrun|].
  split; [rewrite Hsp, lookup_alter_eq, Hs; reflexivity|].
  split; [exact Hg|].
  rewrite Hg. unfold not_cached. rewrite Hg. simpl.
  destruct (stale st sp); (split; [split|]).
  - apply uint32_diff_ne. change (2 ^ 32) with 4294967296. lia.
  - apply uint32_diff_ne. change (2 ^ 32) with 4294967296. lia.
  - split; [discriminate|]. intros _. split; [reflexivity|].
    assert (being_swept st1 (mheap_sweepgen st) s) as Hbs.
    { eexists. split; [rewrite Hsp, lookup_alter_eq, Hs; reflexivity|].
      reflexivity. }
    intros l. split.
    + apply scan_nonempty_skips_claimed. exact Hbs.
    + apply scan_empty_skips_claimed. exact Hbs.
  - intros Heq. symmetry in Heq.
    apply (uint32_offset_ne (mheap_sweepgen st) 1) in Heq; [auto|lia|].
    change (2 ^ 32) with 4294967296. lia.
  - intros Heq. symmetry in Heq.
    apply (uint32_offset_ne (mheap_sweepgen st) 3) in Heq; [auto|lia|].
    change (2 ^ 32) with 4294967296. lia.
  - split; [reflexivity | discriminate].
Qed.

Lemma uncacheSpan_ends_lease_witness :
  let st := central_with Empty (span8 5 6) 8 8192 in
  exists st1 sp1,
    uncacheSpan rt8 1 st
    = (mspan_sweep rt8 1 false ≫= λ _, ret ()) st1 /\
    spans st1 !! 1%nat = Some sp1 /\
    not_cached st1 sp1 /\
    sweepgen sp1 = 3.
Proof.
  intros st.
  destruct (uncacheSpan_ends_lease rt8 1 st (span8 5 6))
    as (st1 & sp1 & Hrun & Hsp & Hg & Hnc & _ & Hstale).
  - reflexivity.
  - vm_compute. discriminate.
  - unfold span_inv. simpl. lia.
  - simpl. lia.
  - exists st1, sp1. split; [exact Hrun|]. split; [exact Hsp|].
    split; [exact Hnc|].
    destruct Hstale as [Hgen _]; [reflexivity|].
    rewrite Hgen, Hg. reflexivity.
Defined.

(** X6. What a lease leaves in the counters. A swept span is acquired from
    the nonempty list with [allocCount sp] slots in use; its holder uses
    it, so that the record is [sp'] when the span is released (same
    [nelems] and [elemsize], not stale). After the release [nmalloc] has
    grown by the slots allocated during the lease,
    [allocCount sp' - allocCount sp], and [heap_live] by their bytes plus
    the bytes of the span that hold no slot. *)
Theorem lease_counts_allocations rt fuel st pre s rest sp sp' :
  nonempty (c st) = pre ++ s :: rest ->
  Forall (being_swept st (mheap_sweepgen st)) pre ->
  spans st !! s = Some sp ->
  0 <= mheap_sweepgen st < 2 ^ 32 ->
  sweepgen sp = mheap_sweepgen st ->
  span_inv sp ->
  allocCount sp < nelems sp ->
  freeindex sp <> nelems sp ->
  deductSweepCredit rt (spanBytes_of rt (spanclass (c st))) 0 st = Ok () st ->
  nelems sp' = nelems sp ->
  elemsize sp' = elemsize sp ->
  span_inv sp' ->
  allocCount sp' <> 0 ->
  sweepgen sp' <> uint32 (mheap_sweepgen st + 1) ->
  exists st1 st2,
    cacheSpan rt (S fuel) st = Ok (Some s) st1 /\
    uncacheSpan rt s (set_spans (insert s sp') st1) = Ok () st2 /\
    nmalloc (c st2)
      = uint64 (nmalloc (c st) + (allocCount sp' - allocCount sp)) /\
    heap_live st2
      = uint64 (heap_live st
                + (spanBytes_of rt (spanclass (c st))
                   - nelems sp * elemsize sp)
                + (allocCount sp' - allocCount sp) * elemsize sp).
Proof.
  intros Hne Hpre Hs Hsg Hgen Hinv Hac Hfi Hcredit Hnel Hes Hinv' Ha' Hns.
  assert (no_free_objects sp = false) as Hno.
  { destruct (no_free_objects sp) eqn:E; [|reflexivity].
    apply (no_free_objects_inv _ Hinv) in E. lia. }
  destruct (cacheSpan_takes_swept_span rt fuel st pre s rest sp
              Hne Hpre Hs Hsg Hgen Hno Hcredit)
    as (st1 & ch & Hrun1 & Hsp1 & Hg1 & Hne1 & Hem1 & Hnm1 & Hhl1).
  set (st1' := set_spans (insert s sp') st1).
  assert (spans st1' !! s = Some sp') as Hs1 by apply lookup_insert_eq.
  assert (stale st1' sp' = false) as Hst.
  { unfold stale. simpl. rewrite Hg1. apply Z.eqb_neq. exact Hns. }
  destruct (uncacheSpan_run rt s st1' sp' Hs1 Ha' Hinv')
    as (st2 & Hrun2 & _ & _ & Hfree & Hfull).
  rewrite Hst in Hrun2, Hfree.
  exists st1, st2. split; [exact Hrun1|]. split; [exact Hrun2|].
  assert (allocCount sp' < nelems sp' \/ allocCount sp' = nelems sp')
    as [Hc|Hc] by (destruct Hinv' as (_ & ? & _); lia).
  - destruct (Hfree Hc) as (_ & _ & Hnm2 & Hhl2 & _).
    simpl in Hnm2, Hhl2. rewrite Hnm2, Hhl2, Hnm1, Hhl1, Hnel, Hes. split.
    + apply uint64_of_eqm. rewrite uint64_eqm.
      match goal with
      | |- eqm _ ?a ?b => replace a with b by lia
      end. reflexivity.
    + apply uint64_of_eqm. rewrite uint64_eqm, !uintptr_eqm.
      match goal with
      | |- eqm _ ?a ?b => replace a with b by lia
      end. reflexivity.
  - destruct (Hfull Hc) as (Hcc & Hhl2 & _).
    simpl in Hcc, Hhl2. rewrite Hcc, Hhl2, Hnm1, Hhl1, Hc, Hnel. split.
    + reflexivity.
    + apply uint64_of_eqm. rewrite !uintptr_eqm.
      match goal with
      | |- eqm _ ?a ?b => replace a with b by lia
      end. reflexivity.
Qed.

Lemma lease_counts_allocations_witness :
  let st := central_with Nonempty (span48 4 100) 100 4800 in
  exists st1 st2,
    cacheSpan rt48 1 st = Ok (Some 1%nat) st1 /\
    uncacheSpan rt48 1 (set_spans (insert 1%nat (span48 7 130)) st1)
    = Ok () st2 /\
    nmalloc (c st2) = 130 /\
    heap_live st2 = 6272.
Proof.
  intros st.
  destruct (lease_counts_allocations rt48 0 st [] 1%nat [] (span48 4 100)
              (span48 7 130))
    as (st1 & st2 & H1 & H2 & Hnm & Hhl).
  - reflexivity.
  - apply Forall_nil_2.
  - reflexivity.
  - simpl. lia.
  - reflexivity.
  - unfold span_inv. simpl. lia.
  - simpl. lia.
  - simpl. lia.
  - reflexivity.
  - reflexivity.
  - reflexivity.
  - unfold span_inv. simpl. lia.
  - simpl. lia.
  - vm_compute. discriminate.
  - exists st1, st2. split; [exact H1|]. split; [exact H2|].
    split; [rewrite Hnm | rewrite Hhl]; reflexivity.
Defined.

(** ** When the lists have nothing to give *)

Lemma scan_nonempty_all_claimed rt sg l st :
  Forall (being_swept st sg) l -> scan_nonempty rt sg l st = Ok None st.
Proof.
  induction 1 as [|x l Hx _ IH]; [reflexivity|].
  rewrite scan_nonempty_skips_claimed by exact Hx. exact IH.
Qed.

Lemma scan_empty_stops rt sg l st :
  stops_scan st sg l -> scan_empty rt sg l st = Ok LoopDone st.
Proof.
  intros (pre & tail & -> & Hpre & Htail).
  induction Hpre as [|x pre Hx _ IH].
  - destruct tail as [|x tail]; [reflexivity|].
    destruct Htail as (spx & Hs & H2 & H1). simpl. munfold. rewrite Hs.
    apply Z.eqb_neq in H2, H1. rewrite H2. simpl. rewrite Hs, H1.
    reflexivity.
  - rewrite <- app_comm_cons, scan_empty_skips_claimed by exact Hx. exact IH.
Qed.

(** X7. Exhaustion. When every span of the nonempty list is being swept by
    someone else, the loop over the empty list stops at an already swept
    span (or finds only spans being swept), and the page heap has nothing
    to give, [cacheSpan] returns nil: it has taken and released the mutex
    once, asked the heap once with the mutex free, and changed neither the
    lists, nor a span, nor a counter. Spans behind the swept span of the
    empty list are not looked at, unswept or not. *)
Theorem cacheSpan_exhausted rt fuel st :
  Forall (being_swept st (mheap_sweepgen st)) (nonempty (c st)) ->
  stops_scan st (mheap_sweepgen st) (empty (c st)) ->
  deductSweepCredit rt (spanBytes_of rt (spanclass (c st))) 0 st = Ok () st ->
  (forall n st0,
     spans st0 = spans st ->
     mheap_alloc rt n (spanclass (c st)) true st0 = Ok None st0) ->
  exists st',
    cacheSpan rt (S fuel) st = Ok None st' /\
    spans st' = spans st /\
    nonempty (c st') = nonempty (c st) /\
    empty (c st') = empty (c st) /\
    nmalloc (c st') = nmalloc (c st) /\
    heap_live st' = heap_live st /\
    lock_held (c st') = false /\
    events_since st st'
    = [EvLock; EvUnlock;
       EvHeapAlloc
         (uintptr
            (class_to_allocnpages rt (sizeclass rt (spanclass (c st)))))].
Proof.
  intros Hne Hem Hcredit Halloc.
  unfold cacheSpan, deductSweepCredit_, logged. munfold.
  rewrite Hcredit. simpl. munfold. simpl.
  rewrite scan_nonempty_all_claimed by exact Hne. simpl.
  rewrite scan_empty_stops by exact Hem. simpl.
  unfold grow, mheap_alloc_, logged. munfold. simpl.
  rewrite Halloc by reflexivity. simpl.
  eexists. split; [reflexivity|]. simpl.
  erewrite events_since_app
    by (simpl; rewrite app_nil_r, <- !app_assoc; simpl; reflexivity).
  repeat split; reflexivity.
Qed.

Lemma cacheSpan_exhausted_witness :
  let st :=
    {| c := {| lock_held := false; spanclass := 10; nonempty := [1%nat];
               empty := [2%nat; 3%nat]; nmalloc := 16 |};
       spans := {[ 1%nat := span8 3 5; 2%nat := span8 4 8;
                   3%nat := span8 2 8 ]};
       mheap_sweepgen := 4; heap_live := 16384; trace := [] |} in
  exists st',
    cacheSpan rt48 1 st = Ok None st' /\
    spans st' = spans st /\
    nonempty (c st') = nonempty (c st) /\
    empty (c st') = empty (c st) /\
    nmalloc (c st') = nmalloc (c st) /\
    heap_live st' = heap_live st /\
    lock_held (c st') = false /\
    events_since st st' = [EvLock; EvUnlock; EvHeapAlloc 1].
Proof.
  intros st. apply (cacheSpan_exhausted rt48 0 st).
  - apply Forall_cons. split; [|apply Forall_nil_2].
    exists (span8 3 5). split; reflexivity.
  - exists [], [2%nat; 3%nat]. split; [reflexivity|].
    split; [apply Forall_nil_2|].
    exists (span8 4 8). split; [reflexivity|].
    split; vm_compute; discriminate.
  - reflexivity.
  - reflexivity.
Defined.

(** ** The first span of a central list *)

Lemma havespan_mutex rt sb s st r st' :
  havespan rt sb s st = Ok r st' ->
  lock_held (c st') = lock_held (c st) /\ spanclass (c st') = spanclass (c st).
Proof.
  unfold havespan, mspan_refillAllocCache. munfold.
  destruct (spans st !! s) as [sp|] eqn:Hs; [|discriminate].
  destruct (_ || _); [discriminate|]. simpl. rewrite Hs. simpl.
  intros [= _ <-]. simpl. split; reflexivity.
Qed.

(** X8. A new span. When every span of the nonempty list is being swept by
    someone else and the loop over the empty list stops without a span to
    sweep, [cacheSpan] asks the page heap, with the mutex free, for the
    page count of the list's size class, and returns the span the heap
    gives: queued at the back of the empty list (the nonempty list is as
    before), its limit and allocation cache set and no other field, no
    other span touched, all its free slots counted in [nmalloc], and the
    span's bytes less the bytes already in use added to [heap_live]. *)
Theorem cacheSpan_takes_new_span_from_heap rt fuel st s sp :
  Forall (being_swept st (mheap_sweepgen st)) (nonempty (c st)) ->
  stops_scan st (mheap_sweepgen st) (empty (c st)) ->
  deductSweepCredit rt (spanBytes_of rt (spanclass (c st))) 0 st = Ok () st ->
  (forall n st0,
     spans st0 = spans st ->
     mheap_sweepgen st0 = mheap_sweepgen st ->
     mheap_alloc rt n (spanclass (c st)) true st0
     = Ok (Some s) (set_spans (insert s sp) st0)) ->
  no_free_objects sp = false ->
  exists st' cache lim d d',
    cacheSpan rt (S fuel) st = Ok (Some s) st' /\
    spans st' = <[s := set_allocCache cache (set_limit lim sp)]> (spans st) /\
    spanclass (c st') = spanclass (c st) /\
    nonempty (c st') = nonempty (c st) /\
    empty (c st') = empty (c st) ++ [s] /\
    nmalloc (c st') = uint64 (nmalloc (c st) + (nelems sp - allocCount sp)) /\
    heap_live st'
    = uint64 (heap_live st
              + (spanBytes_of rt (spanclass (c st))
                 - uintptr (uintptr (allocCount sp) * elemsize sp))) /\
    lock_held (c st') = false /\
    events_since st st'
    = [EvLock; EvUnlock;
       EvHeapAlloc
         (uintptr (class_to_allocnpages rt (sizeclass rt (spanclass (c st)))));
       EvLock; EvInsertBack Empty s; EvUnlock;
       EvXaddNmalloc d; EvXaddHeapLive d'].
Proof.
  intros Hne Hem Hcredit Halloc Hfree.
  unfold cacheSpan, deductSweepCredit_, logged. munfold.
  rewrite Hcredit. simpl. munfold. simpl.
  rewrite scan_nonempty_all_claimed by exact Hne. simpl.
  rewrite scan_empty_stops by exact Hem. simpl.
  unfold grow, mheap_alloc_, logged. munfold. simpl.
  rewrite Halloc by reflexivity. simpl. rewrite lookup_insert_eq. simpl.
  match goal with
  | |- context [havespan rt ?sb s ?ST] =>
      destruct (havespan_run rt sb s ST
                  (set_limit
                     (uintptr
                        (startAddr sp
                         + uintptr
                             (uintptr (class_to_size rt
                                         (sizeclass rt (spanclass (c st))))
                              * Z.shiftr
                                  (uintptr
                                     (Z.shiftr
                                        (uintptr
                                           (Z.shiftl
                                              (uintptr
                                                 (class_to_allocnpages rt
                                                    (sizeclass rt
                                                       (spanclass (c st)))))
                                              (_PageShift rt)))
                                        (divShift sp)
                                      * uintptr (divMul sp)))
                                  (divShift2 sp)))) sp))
        as (st' & cache & Hrun & Hsp & _ & Hn & He & Hnm & Hhl & d & d' & Ht)
  end.
  { simpl. rewrite lookup_alter_eq, lookup_insert_eq. reflexivity. }
  { exact Hfree. }
  rewrite Hrun. simpl in *.
  eexists st', cache, _, d, d'. split; [reflexivity|].
  split.
  { rewrite Hsp. apply map_eq. intros i. destruct (decide (i = s)) as [->|Hi].
    - rewrite !lookup_insert_eq. reflexivity.
    - rewrite !lookup_insert_ne, lookup_alter_ne, lookup_insert_ne
        by congruence. reflexivity. }
  apply havespan_mutex in Hrun as [Hl Hc]. simpl in Hl, Hc.
  repeat split; try assumption.
  apply events_since_app. rewrite Ht, app_nil_r, <- !app_assoc. reflexivity.
Qed.

Lemma cacheSpan_takes_new_span_from_heap_witness :
  let st :=
    {| c := {| lock_held := false; spanclass := 10; nonempty := [1%nat];
               empty := [2%nat; 3%nat]; nmalloc := 16 |};
       spans := {[ 1%nat := span8 3 5; 2%nat := span8 4 8;
                   3%nat := span8 2 8 ]};
       mheap_sweepgen := 4; heap_live := 16384; trace := [] |} in
  exists st' cache lim d d',
    cacheSpan rt8 1 st = Ok (Some 7%nat) st' /\
    spans st'
    = <[7%nat := set_allocCache cache (set_limit lim (fresh_span 4))]>
        (spans st) /\
    spanclass (c st') = 10 /\
    nonempty (c st') = [1%nat] /\
    empty (c st') = [2%nat; 3%nat; 7%nat] /\
    nmalloc (c st') = 24 /\
    heap_live st' = 24576 /\
    lock_held (c st') = false /\
    events_since st st'
    = [EvLock; EvUnlock; EvHeapAlloc 1;
       EvLock; EvInsertBack Empty 7%nat; EvUnlock;
       EvXaddNmalloc d; EvXaddHeapLive d'].
Proof.
  intros st.
  apply (cacheSpan_takes_new_span_from_heap rt8 0 st 7%nat (fresh_span 4)).
  - apply Forall_cons. split; [|apply Forall_nil_2].
    exists (span8 3 5). split; reflexivity.
  - exists [], [2%nat; 3%nat]. split; [reflexivity|].
    split; [apply Forall_nil_2|].
    exists (span8 4 8). split; [reflexivity|].
    split; vm_compute; discriminate.
  - reflexivity.
  - intros n st0 Hst0 Hsg. simpl. unfold alloc_at_7. rewrite Hst0, Hsg.
    reflexivity.
  - reflexivity.
Defined.

(** X9. The first span of a list. After [init spc], whatever the lists held
    before, the first [cacheSpan] finds both lists empty and takes its span
    from the page heap, asking for the page count of size class
    [sizeclass spc]: the span is returned, it is the only span of the
    empty list, the nonempty list is empty, and the span class of the
    list is [spc]. [init] itself writes neither a span nor a counter. *)
Theorem first_cacheSpan_after_init rt fuel spc st0 s sp :
  let st := final (init spc st0) in
  deductSweepCredit rt (spanBytes_of rt spc) 0 st = Ok () st ->
  (forall n st1,
     spans st1 = spans st0 ->
     mheap_sweepgen st1 = mheap_sweepgen st0 ->
     mheap_alloc rt n spc true st1
     = Ok (Some s) (set_spans (insert s sp) st1)) ->
  no_free_objects sp = false ->
  exists st' cache lim d d',
    cacheSpan rt (S fuel) st = Ok (Some s) st' /\
    spanclass (c st') = spc /\
    nonempty (c st') = [] /\
    empty (c st') = [s] /\
    spans st' = <[s := set_allocCache cache (set_limit lim sp)]> (spans st0) /\
    nmalloc (c st') = uint64 (nmalloc (c st0) + (nelems sp - allocCount sp)) /\
    heap_live st'
    = uint64 (heap_live st0
              + (spanBytes_of rt spc
                 - uintptr (uintptr (allocCount sp) * elemsize sp))) /\
    events_since st0 st'
    = [EvLock; EvUnlock;
       EvHeapAlloc (uintptr (class_to_allocnpages rt (sizeclass rt spc)));
       EvLock; EvInsertBack Empty s; EvUnlock;
       EvXaddNmalloc d; EvXaddHeapLive d'].
Proof.
  intros st Hcredit Halloc Hfree. subst st.
  unfold init, mSpanList_init in *. munfold in Hcredit. simpl in Hcredit.
  unfold cacheSpan, deductSweepCredit_, logged. munfold. simpl.
  rewrite Hcredit. simpl. munfold. simpl.
  unfold grow, mheap_alloc_, logged. munfold. simpl.
  rewrite Halloc by reflexivity. simpl. rewrite lookup_insert_eq. simpl.
  match goal with
  | |- context [havespan rt ?sb s ?ST] =>
      edestruct (havespan_run rt sb s ST)
        as (st' & cache & Hrun & Hsp & _ & Hn & He & Hnm & Hhl & d & d' & Ht)
  end.
  { simpl. rewrite lookup_alter_eq, lookup_insert_eq. reflexivity. }
  { exact Hfree. }
  rewrite Hrun. simpl in *.
  eexists st', cache, _, d, d'. split; [reflexivity|].
  apply havespan_mutex in Hrun as [_ Hc]. simpl in Hc.
  repeat split; try assumption.
  - rewrite Hsp. apply map_eq. intros i. destruct (decide (i = s)) as [->|Hi].
    + rewrite !lookup_insert_eq. reflexivity.
    + rewrite !lookup_insert_ne, lookup_alter_ne, lookup_insert_ne
        by congruence. reflexivity.
  - apply events_since_app. rewrite Ht, app_nil_r, <- !app_assoc. reflexivity.
Qed.

Lemma first_cacheSpan_after_init_witness :
  let st0 := central_with Nonempty (span8 4 3) 5 8192 in
  exists st' cache lim d d',
    cacheSpan rt8 1 (final (init 10 st0)) = Ok (Some 7%nat) st' /\
    spanclass (c st') = 10 /\
    nonempty (c st') = [] /\
    empty (c st') = [7%nat] /\
    spans st'
    = <[7%nat := set_allocCache cache (set_limit lim (fresh_span 4))]>
        (spans st0) /\
    nmalloc (c st') = 13 /\
    heap_live st' = 16384 /\
    events_since st0 st'
    = [EvLock; EvUnlock; EvHeapAlloc 1;
       EvLock; EvInsertBack Empty 7%nat; EvUnlock;
       EvXaddNmalloc d; EvXaddHeapLive d'].
Proof.
  intros st0.
  apply (first_cacheSpan_after_init rt8 0 10 st0 7%nat (fresh_span 4)).
  - reflexivity.
  - intros n st1 Hst1 Hsg. simpl. unfold alloc_at_7. rewrite Hst1, Hsg.
    reflexivity.
  - reflexivity.
Defined.

(** ** Claiming an unswept span *)

Lemma scan_empty_skips_prefix rt sg pre l st :
  Forall (being_swept st sg) pre ->
  scan_empty rt sg (pre ++ l) st = scan_empty rt sg l st.
Proof.
  induction 1 as [|x pre Hx _ IH]; [reflexivity|].
  rewrite <- app_comm_cons, scan_empty_skips_claimed by exact Hx.
  exact IH.
Qed.

Lemma freeSpan_preserve_run s wasempty st sp :
  spans st !! s = Some sp ->
  not_cached st sp ->
  s ∈ nonempty (c st) \/ s ∈ empty (c st) ->
  exists st2,
    freeSpan s true wasempty st = Ok false st2 /\
    c st2 = c st /\
    spans st2
    = <[s := set_sweepgen (mheap_sweepgen st) (set_needzero 1 sp)]> (spans st).
Proof.
  intros Hs Hnc Hin. unfold freeSpan. munfold.
  rewrite Hs, (not_cached_test _ _ Hnc). simpl.
  rewrite bool_decide_true by exact Hin. simpl.
  rewrite lookup_alter_eq, Hs. simpl.
  eexists. split; [reflexivity|]. simpl. split; [reflexivity|].
  apply map_eq. intros i. destruct (decide (i = s)) as [->|Hi].
  - rewrite !lookup_alter_eq, Hs, lookup_insert_eq. reflexivity.
  - rewrite !lookup_alter_ne, lookup_insert_ne by congruence. reflexivity.
Qed.

(** X10. An unswept span is claimed before it is swept. When a loop of
    [cacheSpan] comes to an unswept span (sweepgen two behind the global
    one) after spans that are being swept, whatever follows it in the
    list, it calls the sweeper with [preserve] in a state where the span is
    already stamped as being swept by a compare-and-swap, has been moved to
    the back of the empty list, and the mutex is free; no counter is
    written. In that state the sweeper's call of [freeSpan] with [preserve]
    is accepted: it returns false, leaves the central as it is and stamps
    the span as swept. After the sweep the loop over the nonempty list
    jumps to [havespan]; the loop over the empty list asks for the next
    free index and jumps to [havespan], or takes the mutex again and
    retries when the span is still full. *)
Theorem unswept_span_claimed_before_sweep rt pre s rest st sp :
  Forall (being_swept st (mheap_sweepgen st)) pre ->
  spans st !! s = Some sp ->
  sweepgen sp = uint32 (mheap_sweepgen st - 2) ->
  exists stn ste,
    scan_nonempty rt (mheap_sweepgen st) (pre ++ s :: rest) st
    = (mspan_sweep rt s true;; ret (Some s)) stn /\
    scan_empty rt (mheap_sweepgen st) (pre ++ s :: rest) st
    = (mspan_sweep rt s true;;
       freeIndex ← mspan_nextFreeIndex rt s;
       sp1 ← deref s;
       if negb (freeIndex =? nelems sp1)
       then update_span s (set_freeindex freeIndex);; ret (GotoHavespan s)
       else lock;; ret GotoRetry) ste /\
    handed_to_sweeper Nonempty s sp st stn /\
    handed_to_sweeper Empty s sp st ste /\
    forall st1 wasempty,
      st1 = stn \/ st1 = ste ->
      exists st2 sp2,
        freeSpan s true wasempty st1 = Ok false st2 /\
        c st2 = c st1 /\
        spans st2 !! s = Some sp2 /\
        sweepgen sp2 = mheap_sweepgen st.
Proof.
  intros Hpre Hs Hgen.
  rewrite scan_nonempty_skips_prefix, scan_empty_skips_prefix by exact Hpre.
  simpl. munfold. rewrite Hs, Hgen, Z.eqb_refl. simpl.
  rewrite Hs, Hgen, Z.eqb_refl. simpl.
  eexists _, _. split; [reflexivity|]. split; [reflexivity|].
  assert (forall st1 from,
            handed_to_sweeper from s sp st st1 ->
            forall wasempty, exists st2 sp2,
              freeSpan s true wasempty st1 = Ok false st2 /\
              c st2 = c st1 /\
              spans st2 !! s = Some sp2 /\
              sweepgen sp2 = mheap_sweepgen st) as Hfree.
  { intros st1 from (Hsp & Hsg & _ & Hem & _) w.
    destruct (freeSpan_preserve_run s w st1
                (set_sweepgen (uint32 (mheap_sweepgen st - 1)) sp))
      as (st2 & Hrun & Hc & Hsp2).
    - rewrite Hsp, lookup_insert_eq. reflexivity.
    - unfold not_cached. rewrite Hsg. simpl.
      split; apply uint32_diff_ne; change (2 ^ 32) with 4294967296; lia.
    - right. rewrite Hem. apply elem_of_app. right. apply list_elem_of_here.
    - eexists st2, _. split; [exact Hrun|]. split; [exact Hc|].
      rewrite Hsp2, lookup_insert_eq, Hsg. split; reflexivity. }
  assert (forall (t : list event) e1 e2 e3 e4,
            drop (length t) ((((t ++ [e1]) ++ [e2]) ++ [e3]) ++ [e4])
            = [e1; e2; e3; e4]) as Hdrop.
  { intros t e1 e2 e3 e4. rewrite <- !app_assoc. apply drop_app_length. }
  assert (alter (set_sweepgen (uint32 (mheap_sweepgen st - 1))) s (spans st)
          = <[s := set_sweepgen (uint32 (mheap_sweepgen st - 1)) sp]>
              (spans st)) as Ha.
  { apply map_eq. intros i. destruct (decide (i = s)) as [->|Hi].
    - rewrite lookup_alter_eq, Hs, lookup_insert_eq. reflexivity.
    - rewrite lookup_alter_ne, lookup_insert_ne by congruence. reflexivity. }
  match goal with
  | |- handed_to_sweeper Nonempty s sp st ?a /\
       handed_to_sweeper Empty s sp st ?b /\ _ =>
      assert (handed_to_sweeper Nonempty s sp st a) as Hn
        by (unfold handed_to_sweeper, events_since; simpl;
            rewrite Hdrop, Ha; repeat split; reflexivity);
      assert (handed_to_sweeper Empty s sp st b) as He
        by (unfold handed_to_sweeper, events_since; simpl;
            rewrite Hdrop, Ha; repeat split; reflexivity)
  end.
  split; [exact Hn|]. split; [exact He|].
  intros st1 w [-> | ->]; eapply Hfree; eassumption.
Qed.

Lemma unswept_span_claimed_before_sweep_witness :
  let st :=
    {| c := {| lock_held := true; spanclass := 10;
               nonempty := [1%nat; 2%nat]; empty := [1%nat; 2%nat];
               nmalloc := 16 |};
       spans := {[ 1%nat := span8 3 5; 2%nat := span8 2 8 ]};
       mheap_sweepgen := 4; heap_live := 16384; trace := [] |} in
  exists stn ste,
    scan_nonempty rt8_sweeping 4 [1%nat; 2%nat] st
    = (mspan_sweep rt8_sweeping 2 true;; ret (Some 2%nat)) stn /\
    scan_empty rt8_sweeping 4 [1%nat; 2%nat] st
    = (mspan_sweep rt8_sweeping 2 true;;
       freeIndex ← mspan_nextFreeIndex rt8_sweeping 2;
       sp1 ← deref 2;
       if negb (freeIndex =? nelems sp1)
       then update_span 2 (set_freeindex freeIndex);; ret (GotoHavespan 2)
       else lock;; ret GotoRetry) ste /\
    handed_to_sweeper Nonempty 2 (span8 2 8) st stn /\
    handed_to_sweeper Empty 2 (span8 2 8) st ste /\
    forall st1 wasempty,
      st1 = stn \/ st1 = ste ->
      exists st2 sp2,
        freeSpan 2 true wasempty st1 = Ok false st2 /\
        c st2 = c st1 /\
        spans st2 !! 2%nat = Some sp2 /\
        sweepgen sp2 = 4.
Proof.
  intros st.
  apply (unswept_span_claimed_before_sweep rt8_sweeping [1%nat] 2%nat [] st
           (span8 2 8)).
  - apply Forall_cons. split; [|apply Forall_nil_2].
    exists (span8 3 5). split; reflexivity.
  - reflexivity.
  - reflexivity.
Defined.

(** ** How often [cacheSpan] starts over *)

Lemma bind_Unfinished {A B} (m : M A) (k : A -> M B) st st' :
  (m ≫= k) st = Unfinished st' ->
  m st = Unfinished st' \/ exists a st1, m st = Ok a st1 /\ k a st1 = Unfinished st'.
Proof.
  cbv [mbind M_bind bind]. destruct (m st) as [a st1| |]; intros H.
  - right. eauto.
  - discriminate.
  - left. injection H as ->. reflexivity.
Qed.

Lemma finishes_bind {A B} (m : M A) (k : A -> M B) :
  finishes m -> (forall a, finishes (k a)) -> finishes (m ≫= k).
Proof.
  intros Hm Hk st st' H. apply bind_Unfinished in H as [H|(a & st1 & _ & H)].
  - exact (Hm _ _ H).
  - exact (Hk _ _ _ H).
Qed.

Lemma finishes_ret {A} (a : A) : finishes (mret a).
Proof. intros st st'. discriminate. Qed.

Lemma finishes_throw {A} msg : finishes (@throw A msg).
Proof. intros st st'. discriminate. Qed.

Lemma finishes_gets {A} (f : State -> A) : finishes (gets f).
Proof. intros st st'. discriminate. Qed.

Lemma finishes_modify f : finishes (modify f).
Proof. intros st st'. discriminate. Qed.

Lemma finishes_deref s : finishes (deref s).
Proof. intros st st'. unfold deref. destruct (spans st !! s); discriminate. Qed.

Lemma finishes_logged {A} evs (m : M A) : finishes m -> finishes (logged evs m).
Proof.
  intros Hm st st' H. unfold logged in H.
  destruct (m st) eqn:E; try discriminate. exact (Hm _ _ E).
Qed.

Create HintDb fin.

#[local] Hint Resolve finishes_ret finishes_throw finishes_gets finishes_modify
  finishes_deref finishes_logged : fin.

Ltac fin_step :=
  match goal with
  | |- finishes (_ ≫= _) => apply finishes_bind; [|intros ?]
  | |- finishes (if ?b then _ else _) => destruct b
  | |- finishes (match ?x with _ => _ end) => destruct x
  | |- finishes (emit _) => apply finishes_modify
  | |- finishes (update_span _ _) => apply finishes_modify
  | |- _ => solve [auto with fin]
  end.

Ltac fin_auto := repeat fin_step.

Lemma finishes_lock : finishes lock.
Proof. unfold lock. fin_auto. Qed.

Lemma finishes_unlock : finishes unlock.
Proof. unfold unlock. fin_auto. Qed.

Lemma finishes_remove l s : finishes (mSpanList_remove l s).
Proof. unfold mSpanList_remove. fin_auto. Qed.

Lemma finishes_insertBack l s : finishes (mSpanList_insertBack l s).
Proof. unfold mSpanList_insertBack. fin_auto. Qed.

Lemma finishes_Cas s old new : finishes (atomic_Cas_sweepgen s old new).
Proof. unfold atomic_Cas_sweepgen. fin_auto. Qed.

Lemma finishes_Xadd_nmalloc d : finishes (atomic_Xadd64_nmalloc d).
Proof. unfold atomic_Xadd64_nmalloc. fin_auto. Qed.

Lemma finishes_Xadd_heap_live d : finishes (atomic_Xadd64_heap_live d).
Proof. unfold atomic_Xadd64_heap_live. fin_auto. Qed.

Lemma finishes_nextFreeIndex rt s : finishes (mspan_nextFreeIndex rt s).
Proof. unfold mspan_nextFreeIndex. fin_auto. Qed.

Lemma finishes_refill rt s b : finishes (mspan_refillAllocCache rt s b).
Proof. unfold mspan_refillAllocCache. fin_auto. Qed.

#[local] Hint Resolve finishes_lock finishes_unlock finishes_remove
  finishes_insertBack finishes_Cas finishes_Xadd_nmalloc
  finishes_Xadd_heap_live finishes_nextFreeIndex finishes_refill : fin.

Lemma finishes_havespan rt sb s : finishes (havespan rt sb s).
Proof. unfold havespan. fin_auto. Qed.

#[local] Hint Resolve finishes_havespan : fin.

Lemma filter_len_mono (f g : nat -> bool) (l : list nat) :
  (forall x, g x = true -> f x = true) ->
  (length (List.filter g l) <= length (List.filter f l))%nat.
Proof.
  intros Hgf. induction l as [|x l IH]; simpl; [lia|].
  destruct (g x) eqn:Eg.
  - rewrite (Hgf _ Eg). simpl. lia.
  - destruct (f x); simpl; lia.
Qed.

Lemma filter_len_remove (f g : nat -> bool) (s : nat) (l : list nat) :
  f s = true ->
  (forall x, x ≠ s -> g x = f x) ->
  (length (List.filter g (filter (λ x, x ≠ s) l))
   <= length (List.filter f l))%nat /\
  (s ∈ l ->
   (length (List.filter g (filter (λ x, x ≠ s) l))
    < length (List.filter f l))%nat).
Proof.
  intros Hfs Hgf. induction l as [|x l [IH1 IH2]].
  - split; [simpl; lia|]. intros H. destruct (not_elem_of_nil _ H).
  - destruct (decide (x = s)) as [->|Hx].
    + rewrite filter_cons_False by auto. simpl. rewrite Hfs. simpl.
      split; [lia|]. intros _. lia.
    + rewrite filter_cons_True by exact Hx. simpl.
      rewrite (Hgf _ Hx).
      split.
      * destruct (f x); simpl; lia.
      * intros Hin. apply elem_of_cons in Hin as [->|Hin]; [congruence|].
        specialize (IH2 Hin). destruct (f x); simpl; lia.
Qed.

Lemma filter_len_rotate (f g : nat -> bool) (s : nat) (l : list nat) :
  s ∈ l -> f s = true -> g s = false ->
  (forall x, x ≠ s -> g x = f x) ->
  (length (List.filter g (filter (λ x, x ≠ s) l ++ [s]))
   < length (List.filter f l))%nat.
Proof.
  intros Hin Hfs Hgs Hgf.
  rewrite List.filter_app, length_app. simpl. rewrite Hgs. simpl.
  destruct (filter_len_remove f g s l Hfs Hgf) as [_ H].
  specialize (H Hin). lia.
Qed.

Section Retries.

Variable rt : Runtime.
Variable sg : Z.

Hypothesis sweep_finishes : forall s p, finishes (sweep rt s p).
Hypothesis alloc_finishes : forall n spc z, finishes (mheap_alloc rt n spc z).
Hypothesis sweep_keeps : sweeper_keeps_swept rt sg.
Hypothesis next_keeps : nextFreeIndex_keeps_sweepgen rt.

Lemma finishes_sweep s p : finishes (mspan_sweep rt s p).
Proof. unfold mspan_sweep. auto with fin. Qed.

Lemma finishes_grow : finishes (grow rt).
Proof. unfold grow, mheap_alloc_. fin_auto. Qed.

Hint Resolve finishes_sweep finishes_grow : fin.

Lemma finishes_scan_nonempty l : finishes (scan_nonempty rt sg l).
Proof. induction l as [|s l IH]; simpl; fin_auto. Qed.

Lemma finishes_scan_empty l : finishes (scan_empty rt sg l).
Proof. induction l as [|s l IH]; simpl; fin_auto. Qed.

Lemma scan_nonempty_None l st st' :
  scan_nonempty rt sg l st = Ok None st' -> st' = st.
Proof.
  induction l as [|s l IH]; intros H.
  - injection H as <-. reflexivity.
  - simpl in H.
    apply bind_Ok in H as (sp & st0 & Hd & H).
    apply deref_Ok in Hd as [-> Hs].
    apply bind_Ok in H as (claimed & st1 & Hc & H).
    destruct (Z.eqb_spec (sweepgen sp) (uint32 (sg - 2))) as [E|E].
    + munfold in Hc. rewrite Hs in Hc.
      apply Z.eqb_eq in E. rewrite E in Hc. injection Hc as <- <-.
      inv_bind H. inv_bind H. inv_bind H. inv_bind H. discriminate.
    + injection Hc as <- <-.
      apply bind_Ok in H as (sp1 & st0 & Hd & H).
      apply deref_Ok in Hd as [-> _].
      destruct (sweepgen sp1 =? uint32 (sg - 1)); [exact (IH H)|].
      inv_bind H. inv_bind H. inv_bind H. discriminate.
Qed.

Lemma keeps_swept_trans st st1 st2 :
  keeps_swept sg st st1 -> keeps_swept sg st1 st2 -> keeps_swept sg st st2.
Proof.
  intros (Hl1 & Hg1 & Hu1) (Hl2 & Hg2 & Hu2). split; [|split].
  - transitivity st1; assumption.
  - congruence.
  - auto.
Qed.

Lemma keeps_swept_count st st1 :
  keeps_swept sg st st1 -> (unswept_on_empty sg st1 <= unswept_on_empty sg st)%nat.
Proof.
  intros ([_ He] & _ & Hu). unfold unswept_on_empty. rewrite He.
  apply filter_len_mono. exact Hu.
Qed.

Lemma keeps_mspan_sweep s st b st1 :
  mheap_sweepgen st = sg ->
  mspan_sweep rt s true st = Ok b st1 -> keeps_swept sg st st1.
Proof.
  unfold mspan_sweep, logged. intros Hg H.
  destruct (sweep rt s true st) as [b' st'| |] eqn:E; try discriminate.
  injection H as _ <-. exact (sweep_keeps _ _ _ _ Hg E).
Qed.

Lemma keeps_nextFreeIndex s st i st1 :
  mspan_nextFreeIndex rt s st = Ok i st1 -> keeps_swept sg st st1.
Proof.
  unfold mspan_nextFreeIndex. intros H.
  apply bind_Ok in H as (sp & st0 & Hd & H).
  apply deref_Ok in Hd as [-> Hs].
  pose proof (next_keeps sp) as Hk.
  destruct (nextFreeIndex rt sp) as [i' sp']. simpl in Hk.
  munfold in H. injection H as _ <-.
  split; [split; reflexivity|]. split; [reflexivity|].
  intros x. unfold unsweptb. simpl.
  destruct (decide (x = s)) as [->|Hx].
  - rewrite lookup_alter_eq, Hs. simpl. rewrite Hk. auto.
  - rewrite lookup_alter_ne by congruence. auto.
Qed.

(** A jump back to [retry] leaves one unswept span less on the empty
    list. *)
Lemma scan_empty_retry l st st' :
  mheap_sweepgen st = sg ->
  (forall x, x ∈ l -> x ∈ empty (c st)) ->
  scan_empty rt sg l st = Ok GotoRetry st' ->
  mheap_sweepgen st' = sg /\
  (unswept_on_empty sg st' < unswept_on_empty sg st)%nat.
Proof.
  induction l as [|s l IH]; intros Hg Hsub H.
  - discriminate.
  - simpl in H.
    apply bind_Ok in H as (sp & st0 & Hd & H).
    apply deref_Ok in Hd as [-> Hs].
    apply bind_Ok in H as (claimed & st1 & Hc & H).
    destruct (Z.eqb_spec (sweepgen sp) (uint32 (sg - 2))) as [E|E].
    + munfold in Hc. rewrite Hs in Hc.
      pose proof E as E'. apply Z.eqb_eq in E'. rewrite E' in Hc.
      injection Hc as <- <-.
      apply bind_Ok in H as (u1 & st1 & H1 & H). injection H1 as _ <-.
      apply bind_Ok in H as (u2 & st2 & H2 & H). injection H2 as _ <-.
      apply bind_Ok in H as (u3 & st3 & H3 & H). injection H3 as _ <-.
      apply bind_Ok in H as (b & st4 & H4 & H).
      apply keeps_mspan_sweep in H4; [|exact Hg].
      apply bind_Ok in H as (i & st5 & H5 & H).
      apply keeps_nextFreeIndex in H5.
      apply bind_Ok in H as (sp1 & st6 & Hd & H).
      apply deref_Ok in Hd as [-> _].
      destruct (negb (i =? nelems sp1)).
      * inv_bind H. discriminate.
      * apply bind_Ok in H as (u4 & st7 & H7 & H). injection H7 as _ <-.
        injection H as <-.
        pose proof (keeps_swept_trans _ _ _ H4 H5) as H45.
        split; [destruct H45 as (_ & Hg45 & _); simpl in *; congruence|].
        pose proof (keeps_swept_count _ _ H45) as Hle.
        eapply Nat.le_lt_trans; [exact Hle|].
        unfold unswept_on_empty. simpl.
        apply filter_len_rotate.
        -- apply Hsub, list_elem_of_here.
        -- unfold unsweptb. rewrite Hs. exact E'.
        -- unfold unsweptb. simpl. rewrite lookup_alter_eq, Hs. simpl.
           apply Z.eqb_neq. apply uint32_pred_ne.
        -- intros x Hx. unfold unsweptb. simpl.
           rewrite lookup_alter_ne by congruence. reflexivity.
    + injection Hc as <- <-.
      apply bind_Ok in H as (sp1 & st0 & Hd & H).
      apply deref_Ok in Hd as [-> _].
      destruct (sweepgen sp1 =? uint32 (sg - 1)); [|discriminate].
      apply IH; [exact Hg| |exact H].
      intros x Hx. apply Hsub. apply list_elem_of_further. exact Hx.
Qed.

Lemma cacheSpan_retry_finishes fuel sb st :
  mheap_sweepgen st = sg ->
  (unswept_on_empty sg st < fuel)%nat ->
  forall st', cacheSpan_retry rt fuel sg sb st <> Unfinished st'.
Proof.
  revert st. induction fuel as [|fuel IH]; intros st Hsg Hlt st' H; [lia|].
  simpl in H.
  apply bind_Unfinished in H as [H|(ne & st0 & Hg & H)]; [discriminate|].
  injection Hg as <- <-.
  apply bind_Unfinished in H as [H|(r & st1 & Hn & H)];
    [exact (finishes_scan_nonempty _ _ _ H)|].
  destruct r as [s|]; [exact (finishes_havespan _ _ _ _ _ H)|].
  apply scan_nonempty_None in Hn as ->.
  apply bind_Unfinished in H as [H|(em & st0 & Hg & H)]; [discriminate|].
  injection Hg as <- <-.
  apply bind_Unfinished in H as [H|(r & st1 & He & H)];
    [exact (finishes_scan_empty _ _ _ H)|].
  destruct r as [s| |].
  - exact (finishes_havespan _ _ _ _ _ H).
  - apply scan_empty_retry in He as [Hg1 He]; [|exact Hsg|auto].
    apply (IH st1 Hg1 ltac:(lia) st'). exact H.
  - revert H. generalize st1 st'.
    change (finishes
              (unlock;;
               g ← grow rt;
               match g with
               | Some s =>
                   lock;; mSpanList_insertBack Empty s;; unlock;;
                   havespan rt sb s
               | None => ret None
               end)).
    fin_auto.
Qed.

End Retries.

(** X11. [cacheSpan] starts over a bounded number of times. Every jump back
    to [retry] follows the sweep of a span that was unswept on the empty
    list and is not unswept afterwards. So, with a sweeper that (called
    with [preserve]) leaves the lists and the global sweepgen alone and
    makes no span unswept, and a [nextFreeIndex] that leaves the sweepgen
    of the span alone, a call that may start over as many times as there
    are unswept spans on the empty list always comes to an end: it
    returns or dies, provided the sweeper and the page heap do. *)
Theorem cacheSpan_retries_bounded rt fuel st :
  (forall s p, finishes (sweep rt s p)) ->
  (forall n spc z, finishes (mheap_alloc rt n spc z)) ->
  sweeper_keeps_swept rt (mheap_sweepgen st) ->
  nextFreeIndex_keeps_sweepgen rt ->
  deductSweepCredit rt (spanBytes_of rt (spanclass (c st))) 0 st = Ok () st ->
  (unswept_on_empty (mheap_sweepgen st) st < fuel)%nat ->
  forall st', cacheSpan rt fuel st <> Unfinished st'.
Proof.
  intros Hsw Hal Hks Hnk Hcredit Hlt st' H.
  unfold cacheSpan, deductSweepCredit_, logged in H. munfold in H.
  rewrite Hcredit in H. simpl in H.
  refine (cacheSpan_retry_finishes rt (mheap_sweepgen st) Hsw Hal Hks Hnk
            fuel _ _ _ _ st' H).
  - reflexivity.
  - exact Hlt.
Qed.

Lemma finishes_Store s v : finishes (atomic_Store_sweepgen s v).
Proof. unfold atomic_Store_sweepgen. fin_auto. Qed.

Lemma sweep_nothing_finishes s p : finishes (sweep_nothing s p).
Proof.
  unfold sweep_nothing. pose proof finishes_Store. fin_auto.
Qed.

Lemma alloc_at_7_finishes n spc z : finishes (alloc_at_7 n spc z).
Proof.
  intros st st'. unfold alloc_at_7. destruct (spans st !! 7%nat); discriminate.
Qed.

Lemma sweep_nothing_keeps_swept sg :
  0 <= sg < 2 ^ 32 ->
  forall s st b st1,
    mheap_sweepgen st = sg ->
    sweep_nothing s true st = Ok b st1 -> keeps_swept sg st st1.
Proof.
  intros Hsg s st b st1 Hg H. unfold sweep_nothing in H. munfold in H.
  destruct (spans st !! s) as [sp|] eqn:Hs; [|discriminate].
  injection H as _ <-.
  split; [split; reflexivity|]. split; [reflexivity|].
  intros x. unfold unsweptb. simpl.
  destruct (decide (x = s)) as [->|Hx].
  - rewrite lookup_alter_eq, Hs. simpl. rewrite Hg. intros E.
    apply Z.eqb_eq in E. symmetry in E.
    destruct (uint32_offset_ne sg (-2) Hsg ltac:(simpl; lia) E).
  - rewrite lookup_alter_ne by congruence. auto.
Qed.

Lemma cacheSpan_retries_bounded_witness :
  let st :=
    {| c := {| lock_held := false; spanclass := 10; nonempty := [];
               empty := [2%nat; 3%nat]; nmalloc := 16 |};
       spans := {[ 2%nat := span8 2 8; 3%nat := span8 2 8 ]};
       mheap_sweepgen := 4; heap_live := 16384; trace := [] |} in
  unswept_on_empty 4 st = 2%nat /\
  (forall st', cacheSpan rt8 3 st <> Unfinished st') /\
  cacheSpan rt8 2 st = Unfinished (final (cacheSpan rt8 2 st)).
Proof.
  intros st. split; [reflexivity|]. split.
  - apply (cacheSpan_retries_bounded rt8 3 st).
    + exact sweep_nothing_finishes.
    + exact alloc_at_7_finishes.
    + intros s st0 b st1. apply sweep_nothing_keeps_swept.
      change (2 ^ 32) with 4294967296. simpl. lia.
    + intros sp. reflexivity.
    + reflexivity.
    + vm_compute. lia.
  - vm_compute. reflexivity.
Defined.

(** ** Returning nil *)

Lemma grow_nil_log rt st st' :
  grow rt st = Ok None st' ->
  exists n, trace st' = trace st ++ [EvHeapAlloc n].
Proof.
  unfold grow. intros H.
  apply bind_Ok in H as (spc & st0 & Hg & H). injection Hg as <- <-.
  apply bind_Ok in H as (r & st1 & Ha & H).
  unfold mheap_alloc_, logged in Ha.
  destruct (mheap_alloc rt _ _ _ st) as [r' st1'| |]; try discriminate.
  injection Ha as -> <-.
  destruct r as [s|].
  - inv_bind H. inv_bind H. discriminate.
  - injection H as <-. eexists. reflexivity.
Qed.

Lemma cacheSpan_retry_nil rt fuel sg sb st0 st st' :
  quiet_from st0 st ->
  cacheSpan_retry rt fuel sg sb st = Ok None st' ->
  exists st1, quiet_from st0 st1 /\ grow rt st1 = Ok None st'.
Proof.
  revert st. induction fuel as [|fuel IH]; intros st Hq H; [discriminate|].
  simpl in H.
  run_quiet H Hq as ne. run_quiet H Hq as r.
  destruct r as [s0|].
  - destruct (havespan_Ok _ _ _ _ _ _ H) as (sp & _ & _ & Hr). discriminate.
  - run_quiet H Hq as em. run_quiet H Hq as r'.
    destruct r' as [s0| |].
    + destruct (havespan_Ok _ _ _ _ _ _ H) as (sp & _ & _ & Hr).
      discriminate.
    + eauto.
    + run_quiet H Hq as u.
      apply bind_Ok in H as (g & stg & Hg & H).
      destruct g as [s0|].
      * apply bind_Ok in H as (u1 & stg1 & _ & H).
        apply bind_Ok in H as (u2 & stg2 & _ & H).
        apply bind_Ok in H as (u3 & stg3 & _ & H).
        destruct (havespan_Ok _ _ _ _ _ _ H) as (sp & _ & _ & Hr).
        discriminate.
      * injection H as <-. eauto.
Qed.

(** X12. Nil means the page heap gave nothing. A [cacheSpan] that returns
    nil has come to [grow], and [grow] has returned nil right after the
    page heap did: the request to the heap is the last entry of the log.
    The call has added to neither counter, neither before that request nor
    after it. *)
Theorem cacheSpan_nil_only_when_heap_fails rt fuel st st' :
  cacheSpan rt fuel st = Ok None st' ->
  (exists st1 n,
     grow rt st1 = Ok None st' /\
     quiet_from st st1 /\
     trace st' = trace st1 ++ [EvHeapAlloc n]) /\
  count_events is_heap_live_add (events_since st st') = 0%nat /\
  count_events is_nmalloc_add (events_since st st') = 0%nat.
Proof.
  unfold cacheSpan. intros H.
  pose proof (quiet_refl st) as Hq.
  apply bind_Ok in H as (spc & st0 & Hspc & H).
  injection Hspc as Hspc Hst0. subst spc st0.
  run_quiet H Hq as u. run_quiet H Hq as u1. run_quiet H Hq as sg.
  destruct (cacheSpan_retry_nil _ _ _ _ _ _ _ Hq H) as (stg & Hq1 & Hg).
  destruct (grow_nil_log _ _ _ Hg) as (n & Ht).
  split; [exists stg, n; auto|].
  destruct Hq1 as (evs & Ht1 & Hp).
  erewrite (events_since_app st st')
    by (rewrite Ht, Ht1, <- app_assoc; reflexivity).
  rewrite !count_events_app.
  destruct (quiet_counts _ Hp) as [-> ->]. split; reflexivity.
Qed.

Lemma cacheSpan_nil_only_when_heap_fails_witness :
  let st := central_with Empty (span48 4 170) 170 8192 in
  let st' := final (cacheSpan rt48 1 st) in
  cacheSpan rt48 1 st = Ok None st' /\
  (exists st1 n,
     grow rt48 st1 = Ok None st' /\
     quiet_from st st1 /\
     trace st' = trace st1 ++ [EvHeapAlloc n]) /\
  count_events is_heap_live_add (events_since st st') = 0%nat /\
  count_events is_nmalloc_add (events_since st st') = 0%nat.
Proof.
  intros st st'.
  assert (cacheSpan rt48 1 st = Ok None st') as Hrun
    by (vm_compute; reflexivity).
  split; [exact Hrun|].
  exact (cacheSpan_nil_only_when_heap_fails rt48 1 st st' Hrun).
Defined.

(** ** The limit of a new span *)


